(** * dzzones: the greedy circle cover of [computeMinimumCircles]

    A shallow embedding of the zone planner of the [dzzones] command
    (the script that reads a JSON file of objects, projects their positions
    to the horizontal plane and prints one SQL insert per covering circle),
    and the properties of its covering loop.

    - JavaScript numbers are IEEE-754 doubles.  The planner uses of them only
      [a - b], [Math.hypot(a, b) <= r] and, at the command line, [!r],
      [isNaN(r)] and [r <= 0].  These are the operations of the class
      [JSNumber]; the planner is written once over any such arithmetic, and
      the single arithmetic fact its proofs need is the class law
      [hypot_sub_diag].  [ExactNumber] is an executable instance (exact
      rationals plus NaN and the two infinities).
    - Points are JavaScript objects [{ x, y }].  Arrays hold references to
      them and [indexOf] compares references, so an array of points is a
      list of references and the objects live in a heap.  The planner never
      writes to a point, so the heap is read-only. *)

From Stdlib Require Import QArith.
From stdpp Require Import base list strings.

(** ** Numbers *)

Class JSNumber := {
  num : Type;
  zero : num;
  (** [a - b] *)
  sub : num → num → num;
  (** [Math.hypot(a, b) <= r] *)
  hypot_le : num → num → num → bool;
  (** [a <= b] *)
  le : num → num → bool;
  (** [a < b] *)
  lt : num → num → bool;
  isNaN : num → bool;
  (** [Number.isFinite(a)]: neither NaN nor an infinity *)
  isFinite : num → bool;
  (** [!!a]: a number is falsy when it is zero or NaN *)
  toBoolean : num → bool;
  (** For finite [a], [a - a] is [+0], [Math.hypot(+0, +0)] is [+0],
      and [+0 <= r] holds when [0 < r]. *)
  hypot_sub_diag : ∀ a b r,
    isFinite a = true → isFinite b = true → lt zero r = true →
    hypot_le (sub a a) (sub b b) r = true
}.

(** ** Points, references and circles *)

(** The object [{ x, y }] built by [positions.map(pos => ({ x: pos.x, y: pos.y }))]. *)
Record Point `{JSNumber} := { x : num; y : num }.

(** A reference to a point object; [===] on objects compares references. *)
Definition ref := nat.

(** The object literal [{ center, radius: maxRadius, points: coveredPoints }]. *)
Record Circle `{JSNumber} := {
  center : ref;
  radius : num;
  points : list ref
}.

Inductive Error := TypeError.

(** How a call ends: it returns, it throws, or the model ran out of
    loop iterations. *)
Inductive Completion (A : Type) :=
| Return (a : A)
| Throw (e : Error)
| OutOfFuel.
Arguments Return {A} a.
Arguments Throw {A} e.
Arguments OutOfFuel {A}.

(** [uncoveredPoints.indexOf(pt)]: the first index holding the reference
    [pt]; [None] stands for [-1]. *)
Fixpoint indexOf (pt : ref) (arr : list ref) : option nat :=
  match arr with
  | [] => None
  | p :: arr' =>
      if decide (p = pt) then Some 0
      else match indexOf pt arr' with
           | Some index => Some (S index)
           | None => None
           end
  end.

(** [arr.splice(index, 1)], for the array left in [arr]. *)
Definition splice1 (index : nat) (arr : list ref) : list ref := delete index arr.

(** The [forEach] of lines 112-117: each covered point is looked up in
    [uncoveredPoints] and spliced out. *)
Definition removeCovered (pts uncoveredPoints : list ref) : list ref :=
  fold_left (λ uncovered pt,
               match indexOf pt uncovered with
               | Some index => splice1 index uncovered
               | None => uncovered
               end) pts uncoveredPoints.

Section Planner.
Context `{JSNumber}.
(** The heap: the point object a reference denotes. *)
Variable heap : ref → Point.

(** [Math.hypot(point.x - center.x, point.y - center.y) <= maxRadius] *)
Definition within (maxRadius : num) (center point : ref) : bool :=
  hypot_le (sub (x (heap point)) (x (heap center)))
           (sub (y (heap point)) (y (heap center))) maxRadius.

(** The inner loop over [j] (lines 90-99): the array [coveredPoints]
    built for one candidate [center]. *)
Definition coveredPoints (maxRadius : num) (center : ref)
    (uncoveredPoints : list ref) : list ref :=
  fold_left (λ covered point,
               if within maxRadius center point then covered ++ [point]
               else covered) uncoveredPoints [].

(** The two variables of the scan, [bestCircle] ([None] is [null]) and
    [maxCovered]. *)
Record Scan := { bestCircle : option Circle; maxCovered : nat }.

(** One round of the loop over [i] (lines 89-108);
    [coveredPoints.length > maxCovered] is written [maxCovered < length]. *)
Definition scanStep (maxRadius : num) (uncoveredPoints : list ref)
    (s : Scan) (center : ref) : Scan :=
  let covered := coveredPoints maxRadius center uncoveredPoints in
  if decide (maxCovered s < length covered) then
    {| bestCircle := Some {| center := center; radius := maxRadius;
                             points := covered |};
       maxCovered := length covered |}
  else s.

(** Lines 85-109.  The array is not written during the scan, so running
    [i] over the indices is running [center] over the elements. *)
Definition scan (maxRadius : num) (uncoveredPoints : list ref) : Scan :=
  fold_left (scanStep maxRadius uncoveredPoints) uncoveredPoints
            {| bestCircle := None; maxCovered := 0 |}.

(** The [while] loop of lines 84-120; [fuel] bounds the number of
    iterations.  Reading [bestCircle.points] when [bestCircle] is still
    [null] throws a [TypeError]. *)
Fixpoint whileLoop (fuel : nat) (maxRadius : num)
    (uncoveredPoints : list ref) (circles : list Circle)
    : Completion (list Circle) :=
  match uncoveredPoints with
  | [] => Return circles
  | _ :: _ =>
      match fuel with
      | 0 => OutOfFuel
      | S fuel' =>
          match bestCircle (scan maxRadius uncoveredPoints) with
          | None => Throw TypeError
          | Some best =>
              whileLoop fuel' maxRadius
                (removeCovered (points best) uncoveredPoints)
                (circles ++ [best])
          end
      end
  end.

(** [computeMinimumCircles(points, maxRadius)]; [[...points]] copies the
    array of references, not the objects. *)
Definition computeMinimumCircles (fuel : nat) (points : list ref)
    (maxRadius : num) : Completion (list Circle) :=
  whileLoop fuel maxRadius points [].

(** The content of [uncoveredPoints] when the [k]-th circle of [circles]
    is about to be chosen: the input without the points of the circles
    chosen before. *)
Definition uncoveredAt (input : list ref) (circles : list Circle)
    (k : nat) : list ref :=
  fold_left (λ uncovered c, removeCovered (points c) uncovered)
            (take k circles) input.

(** What the scan has found after the candidates [cands]: nothing when no
    candidate covers a point, and otherwise the first candidate of
    maximal count. *)
Definition scanned (maxRadius : num) (u cands : list ref) (s : Scan)
    : Prop :=
  match bestCircle s with
  | None =>
      maxCovered s = 0 ∧
      ∀ c, c ∈ cands → length (coveredPoints maxRadius c u) = 0
  | Some best =>
      maxCovered s = length (points best) ∧
      radius best = maxRadius ∧
      points best = coveredPoints maxRadius (center best) u ∧
      0 < length (points best) ∧
      ∃ i, cands !! i = Some (center best) ∧
           (∀ c, c ∈ cands →
                 length (coveredPoints maxRadius c u)
                 ≤ length (points best)) ∧
           (∀ j c, j < i → cands !! j = Some c →
                   length (coveredPoints maxRadius c u)
                   < length (points best))
  end.

(** The circles a run emits from [uncoveredPoints = u], one rule per
    iteration of the [while] loop. *)
Inductive emits (maxRadius : num) : list ref → list Circle → Prop :=
| emits_done : emits maxRadius [] []
| emits_step u best rest :
    u ≠ [] →
    bestCircle (scan maxRadius u) = Some best →
    emits maxRadius (removeCovered (points best) u) rest →
    emits maxRadius u (best :: rest).

(** Both coordinates of the point are finite. *)
Definition finitePoint (p : ref) : Prop :=
  isFinite (x (heap p)) = true ∧ isFinite (y (heap p)) = true.

(** A circle as a reader of its fields sees it: the coordinates of the
    center, the radius, and the coordinates of the covered points. *)
Definition readCircle (c : Circle) : Point * num * list Point :=
  (heap (center c), radius c, map heap (points c)).

(** The outcome of a call as its caller sees it. *)
Definition observe (r : Completion (list Circle))
    : Completion (list (Point * num * list Point)) :=
  match r with
  | Return circles => Return (map readCircle circles)
  | Throw e => Throw e
  | OutOfFuel => OutOfFuel
  end.

End Planner.

(** The circles pushed before a loop started, put back in front of what
    the loop returns. *)
Definition extend `{JSNumber} (acc : list Circle) (r : Completion (list Circle))
    : Completion (list Circle) :=
  match r with
  | Return cs => Return (acc ++ cs)
  | Throw e => Throw e
  | OutOfFuel => OutOfFuel
  end.

(** Two runs, each with its own objects. *)
Section TwoHeaps.
Context `{JSNumber}.
Variables heap1 heap2 : ref → Point.

(** Two references, one in each run, to points of equal coordinates. *)
Definition alike (p q : ref) : Prop := heap1 p = heap2 q.

Definition alikeCircle (b1 b2 : Circle) : Prop :=
  alike (center b1) (center b2) ∧ radius b1 = radius b2 ∧
  Forall2 alike (points b1) (points b2).

Definition alikeScan (s1 s2 : Scan) : Prop :=
  maxCovered s1 = maxCovered s2 ∧
  option_Forall2 alikeCircle (bestCircle s1) (bestCircle s2).

Definition alikeCompletion (r1 r2 : Completion (list Circle)) : Prop :=
  match r1, r2 with
  | Return cs1, Return cs2 => Forall2 alikeCircle cs1 cs2
  | Throw e1, Throw e2 => e1 = e2
  | OutOfFuel, OutOfFuel => True
  | _, _ => False
  end.

End TwoHeaps.

(** ** The command line (lines 19-78) *)

Module Cli.

(** [program.opts()]: a flag that was not given is [undefined], here
    [None]; [--radius] goes through [parseFloat]. *)
Module Options.
Record t `{JSNumber} := {
  input : option string;
  radius : option num;
  type : option string;
  sid : option string
}.
End Options.

(** What [fs.readFile] and [JSON.parse] hand to the callback; an object
    is represented by its [pos] array, in the order [[x, z, y]]. *)
Inductive InputFile `{JSNumber} :=
| ReadError
| ParseError
| Parsed (Objects : list (num * num * num)).

(** The values interpolated into one insert statement. *)
Record Row `{JSNumber} := {
  ztype : string;
  zcoordsx : num;
  zcoordsy : num;
  zradius : num;
  zsid : string
}.

Inductive Outcome `{JSNumber} :=
(** [console.error(message); process.exit(1)] *)
| Exit1 (message : string)
(** an exception thrown inside the [readFile] callback *)
| Uncaught (e : Error)
(** one [console.log] per circle *)
| Printed (rows : list Row)
(** the model ran out of loop iterations *)
| Unfinished.

Definition inputRequired : string :=
  "Input file is required. Use -i or --input to specify the input file.".
Definition radiusRequired : string :=
  "Maximum circle radius is required and must be a positive number. Use -r or --radius to specify the radius.".
Definition typeRequired : string :=
  "Zone type is required. Use -t or --type to specify the type.".
Definition sidRequired : string :=
  "SID is required. Use -s or --sid to specify the SID.".

(** A string option that passes [if (!value) { ... exit }]: [undefined]
    and the empty string are falsy. *)
Definition present (value : option string) : option string :=
  match value with
  | None => None
  | Some s => if decide (s = EmptyString) then None else Some s
  end.

Section WithNumber.
Context `{JSNumber}.

(** A radius that passes the test of line 26,
    [!options.radius || isNaN(options.radius) || options.radius <= 0];
    [!undefined] is [true]. *)
Definition acceptedRadius (r : option num) : option num :=
  match r with
  | None => None
  | Some r =>
      if negb (toBoolean r) || isNaN r || le r zero then None else Some r
  end.

(** The array [points]: [map] allocates one fresh object per position;
    the vertical coordinate [z] is dropped. *)
Definition project (Objects : list (num * num * num)) : list Point :=
  map (λ pos, match pos with (px, pz, py) => {| x := px; y := py |} end)
      Objects.

(** The heap after that allocation: reference [i] is the [i]-th object. *)
Definition heapOf (objs : list Point) : ref → Point :=
  λ r, default {| x := zero; y := zero |} (objs !! r).

Definition row (heap : ref → Point) (zoneType zsid : string)
    (circle : Circle) : Row :=
  {| ztype := zoneType;
     zcoordsx := x (heap (center circle));
     zcoordsy := y (heap (center circle));
     zradius := radius circle;
     zsid := zsid |}.

(** The callback of [fs.readFile] (lines 46-78), once the options
    are known to be present. *)
Definition callback (fuel : nat) (maxRadius : num) (zoneType zsid : string)
    (file : InputFile) : Outcome :=
  match file with
  | ReadError => Exit1 "Error reading input file: "
  | ParseError => Exit1 "Error parsing JSON: "
  | Parsed Objects =>
      let objs := project Objects in
      let heap := heapOf objs in
      match computeMinimumCircles heap fuel (seq 0 (length objs)) maxRadius with
      | Return circles => Printed (map (row heap zoneType zsid) circles)
      | Throw e => Uncaught e
      | OutOfFuel => Unfinished
      end
  end.

(** The script, lines 19-78. *)
Definition dzzones (fuel : nat) (options : Options.t) (file : InputFile)
    : Outcome :=
  match present (Options.input options) with
  | None => Exit1 inputRequired
  | Some _ =>
  match acceptedRadius (Options.radius options) with
  | None => Exit1 radiusRequired
  | Some maxRadius =>
  match present (Options.type options) with
  | None => Exit1 typeRequired
  | Some zoneType =>
  match present (Options.sid options) with
  | None => Exit1 sidRequired
  | Some zsid => callback fuel maxRadius zoneType zsid file
  end end end end.

End WithNumber.
End Cli.

(** ** An executable arithmetic

    Finite doubles are rationals; this instance computes on them exactly
    (no rounding, no overflow, one zero) and follows IEEE-754 on NaN and
    the infinities.  It is used to run the planner on concrete inputs. *)

Module ExactNumber.

Inductive t := NaN | PosInf | NegInf | Fin (q : Q).

Definition sub (a b : t) : t :=
  match a, b with
  | NaN, _ | _, NaN => NaN
  | PosInf, PosInf | NegInf, NegInf => NaN
  | PosInf, _ | _, NegInf => PosInf
  | NegInf, _ | _, PosInf => NegInf
  | Fin p, Fin q => Fin (p - q)
  end.

(** [Math.hypot] gives [+Infinity] when an argument is infinite (even if
    the other is NaN) and NaN when one is NaN; a comparison with NaN is
    false. *)
Definition hypot_le (a b r : t) : bool :=
  match a, b with
  | PosInf, _ | NegInf, _ | _, PosInf | _, NegInf =>
      match r with PosInf => true | _ => false end
  | NaN, _ | _, NaN => false
  | Fin p, Fin q =>
      match r with
      | NaN | NegInf => false
      | PosInf => true
      | Fin s => Qle_bool 0 s && Qle_bool (p * p + q * q) (s * s)
      end
  end.

Definition le (a b : t) : bool :=
  match a, b with
  | NaN, _ | _, NaN => false
  | NegInf, _ | _, PosInf => true
  | PosInf, _ | _, NegInf => false
  | Fin p, Fin q => Qle_bool p q
  end.

Definition lt (a b : t) : bool :=
  match a, b with
  | NaN, _ | _, NaN => false
  | PosInf, _ | _, NegInf => false
  | NegInf, _ | _, PosInf => true
  | Fin p, Fin q => negb (Qle_bool q p)
  end.

Definition isNaN (a : t) : bool :=
  match a with NaN => true | _ => false end.

Definition isFinite (a : t) : bool :=
  match a with Fin _ => true | _ => false end.

Definition toBoolean (a : t) : bool :=
  match a with
  | NaN => false
  | PosInf | NegInf => true
  | Fin q => negb (Qeq_bool q 0)
  end.

Lemma hypot_sub_diag (a b r : t) :
  isFinite a = true → isFinite b = true → lt (Fin 0) r = true →
  hypot_le (sub a a) (sub b b) r = true.
Proof.
  destruct a as [| | |p], b as [| | |q]; try discriminate.
  intros _ _. destruct r as [| | |s]; try discriminate; [reflexivity|].
  simpl. intros Hs. apply andb_true_iff.
  assert (0 < s)%Q as Hpos.
  { apply Qnot_le_lt. intros Hle. apply Qle_bool_iff in Hle.
    rewrite Hle in Hs. discriminate. }
  split; apply Qle_bool_iff.
  - apply Qlt_le_weak, Hpos.
  - assert ((p - p) * (p - p) + (q - q) * (q - q) == 0)%Q as -> by ring.
    apply Qmult_le_0_compat; apply Qlt_le_weak, Hpos.
Qed.

#[global] Instance number : JSNumber :=
  Build_JSNumber t (Fin 0) sub hypot_le le lt isNaN isFinite toBoolean
                 hypot_sub_diag.
End ExactNumber.

(** ** Sample inputs *)

Module Samples.
Import ExactNumber.

(** A finite number, and [Infinity]. *)
Definition fin (q : Q) : @num number := Fin q.
Definition infinity : @num number := PosInf.

Definition at_ (a b : Q) : Point := {| x := Fin a; y := Fin b |}.

(** The references of freshly allocated objects. *)
Definition refs (objs : list Point) : list ref := seq 0 (length objs).

(** Four points on a line, one unit apart, listed right to left. *)
Definition line : list Point := [at_ 3 0; at_ 2 0; at_ 1 0; at_ 0 0].

(** Three objects of the same coordinates. *)
Definition triple : list Point := [at_ 5 5; at_ 5 5; at_ 5 5].

(** The same coordinates as [line], carried by other objects: the heap
    holds them in reverse and the array lists the references backwards. *)
Definition lineAgain : list Point := [at_ 0 0; at_ 1 0; at_ 2 0; at_ 3 0].

Definition lineHeap : ref → Point := Cli.heapOf line.
Definition lineRefs : list ref := refs line.

(** What the planner returns on [line] with radius 1. *)
Definition lineCircles : list Circle :=
  [ {| center := 1; radius := fin 1; points := [0; 1; 2] |};
    {| center := 3; radius := fin 1; points := [3] |} ].

(** A finite point and one whose [x] is [Infinity] (the JSON number
    [1e999] parses to it). *)
Definition stray : list Point :=
  [at_ 0 0; {| x := PosInf; y := Fin 0 |}].

Definition options (r : option num) : Cli.Options.t :=
  {| Cli.Options.input := Some "objects.json"%string;
     Cli.Options.radius := r;
     Cli.Options.type := Some "safezone"%string;
     Cli.Options.sid := Some "1"%string |}.

End Samples.

(** ** The command line of [dzwarp] (src/unnamed/part_001, lines 18-88)

    [parseArguments] walks [process.argv], stores the value that follows
    each flag in [argMap], and then checks the combination of flags.  A key
    of [argMap] is absent ([None]) or present; a present string value is
    [undefined] ([Some None]) when the flag was the last word.  [parseFloat]
    is the built-in, taken as given; it is applied to [undefined] in that
    same case. *)

Module Warp.

Record ArgMap `{JSNumber} := {
  inputSetPath : option (option string);
  inputSetRelationDir : option (option string);
  warpX : option num;
  warpY : option num;
  warpZ : option num;
  warpSetPath : option (option string)
}.

(** What is written with [console.error] before the process exits with
    status 1; all but the last are followed by the usage text
    ([displayUsageAndExit]). *)
Inductive Failure :=
(** [Unknown argument: ${arg}] *)
| UnknownArgument (arg : string)
(** [Error: Provide either warp coordinates (-x, -y, -z) or a warped set
    file (-iw), but not both.] *)
| BothModes
(** [Error: Missing required flag -is <inputSetPath>] *)
| MissingInputSet
(** [Error: You must provide either warp coordinates (-x, -y, -z) or a
    warped set file (-iw).] *)
| NoMode
(** [Error: Flags -x, -y, and -z must all be provided when specifying warp
    coordinates.] *)
| IncompleteCoordinates
(** [Error: Flags -x, -y, and -z must be provided with valid numbers.] *)
| InvalidNumbers.

Inductive Parsed `{JSNumber} :=
| Exit (failure : Failure)
| Args (argMap : ArgMap).

(** The words the [switch] has a case for. *)
Definition flags : list string :=
  ["-is"; "-isr"; "-x"; "-y"; "-z"; "-iw"]%string.

Section WithNumber.
Context `{JSNumber}.
Variable parseFloat : option string → num.

(** [const argMap = {}] *)
Definition emptyMap : ArgMap :=
  {| inputSetPath := None; inputSetRelationDir := None; warpX := None;
     warpY := None; warpZ := None; warpSetPath := None |}.

(** The [switch] of lines 25-47, [value] being [args[++i]]; [None] is the
    [default] case. *)
Definition assign (arg : string) (value : option string) (m : ArgMap)
    : option ArgMap :=
  if decide (arg = "-is"%string) then
    Some {| inputSetPath := Some value;
            inputSetRelationDir := inputSetRelationDir m;
            warpX := warpX m; warpY := warpY m; warpZ := warpZ m;
            warpSetPath := warpSetPath m |}
  else if decide (arg = "-isr"%string) then
    Some {| inputSetPath := inputSetPath m;
            inputSetRelationDir := Some value;
            warpX := warpX m; warpY := warpY m; warpZ := warpZ m;
            warpSetPath := warpSetPath m |}
  else if decide (arg = "-x"%string) then
    Some {| inputSetPath := inputSetPath m;
            inputSetRelationDir := inputSetRelationDir m;
            warpX := Some (parseFloat value); warpY := warpY m;
            warpZ := warpZ m; warpSetPath := warpSetPath m |}
  else if decide (arg = "-y"%string) then
    Some {| inputSetPath := inputSetPath m;
            inputSetRelationDir := inputSetRelationDir m;
            warpX := warpX m; warpY := Some (parseFloat value);
            warpZ := warpZ m; warpSetPath := warpSetPath m |}
  else if decide (arg = "-z"%string) then
    Some {| inputSetPath := inputSetPath m;
            inputSetRelationDir := inputSetRelationDir m;
            warpX := warpX m; warpY := warpY m;
            warpZ := Some (parseFloat value); warpSetPath := warpSetPath m |}
  else if decide (arg = "-iw"%string) then
    Some {| inputSetPath := inputSetPath m;
            inputSetRelationDir := inputSetRelationDir m;
            warpX := warpX m; warpY := warpY m; warpZ := warpZ m;
            warpSetPath := Some value |}
  else None.

(** The [for] loop of lines 23-48: [arg] is [args[i]], the value is the
    next word, and the loop goes on after it. *)
Fixpoint parseLoop (args : list string) (m : ArgMap) : Parsed :=
  match args with
  | [] => Args m
  | arg :: rest =>
      match assign arg (head rest) m with
      | None => Exit (UnknownArgument arg)
      | Some m' =>
          match rest with
          | [] => Args m'
          | _ :: rest' => parseLoop rest' m'
          end
      end
  end.

(** [!argMap.inputSetPath] is false: the value is a string that is not
    empty. *)
Definition given (value : option (option string)) : bool :=
  match value with
  | Some (Some s) => bool_decide (s ≠ EmptyString)
  | _ => false
  end.

(** Lines 50-87. *)
Definition check (m : ArgMap) : Parsed :=
  let hasWarpCoordinates :=
    bool_decide (is_Some (warpX m)) || bool_decide (is_Some (warpY m))
    || bool_decide (is_Some (warpZ m)) in
  let hasWarpSet := bool_decide (is_Some (warpSetPath m)) in
  if hasWarpCoordinates && hasWarpSet then Exit BothModes
  else if negb (given (inputSetPath m)) then Exit MissingInputSet
  else if negb hasWarpCoordinates && negb hasWarpSet then Exit NoMode
  else if hasWarpCoordinates then
    match warpX m, warpY m, warpZ m with
    | Some wx, Some wy, Some wz =>
        if isNaN wx || isNaN wy || isNaN wz then Exit InvalidNumbers
        else Args m
    | _, _, _ => Exit IncompleteCoordinates
    end
  else Args m.

(** [parseArguments()], on [args = process.argv.slice(2)]. *)
Definition parseArguments (args : list string) : Parsed :=
  match parseLoop args emptyMap with
  | Exit failure => Exit failure
  | Args m => check m
  end.

(** A command line made of flags each followed by its value. *)
Definition words (pairs : list (string * string)) : list string :=
  concat (map (λ p, [p.1; p.2]) pairs).

(** The map after the flag-value pair [p] was read. *)
Definition assigned (m : ArgMap) (p : string * string) : ArgMap :=
  default m (assign p.1 (Some p.2) m).

End WithNumber.
End Warp.

(** Further sample inputs. *)
Module MoreSamples.
Import ExactNumber.

(** Three points in a row, one unit apart. *)
Definition row3 : list Point :=
  [Samples.at_ 0 0; Samples.at_ 1 0; Samples.at_ 2 0].

(** Three points far from each other. *)
Definition far : list Point :=
  [Samples.at_ 0 0; Samples.at_ 10 0; Samples.at_ 0 10].

(** Two objects of a file, as [pos] arrays [[x, z, y]]. *)
Definition twoObjects : list (@num number * @num number * @num number) :=
  [(Samples.fin 0, Samples.fin 7, Samples.fin 0);
   (Samples.fin 3, Samples.fin 9, Samples.fin 4)].

(** [parseFloat] on the words the samples use; any other word is taken
    as not a number. *)
Definition sampleParseFloat (value : option string) : @num number :=
  match value with
  | Some s =>
      if decide (s = "10"%string) then Fin 10
      else if decide (s = "-3"%string) then Fin (-3)
      else if decide (s = "2.5"%string) then Fin (5 # 2)
      else NaN
  | None => NaN
  end.

(** [dzwarp -is a.json -x 10 -y -3 -z 2.5] *)
Definition byCoordinates : list (string * string) :=
  [("-is", "a.json"); ("-x", "10"); ("-y", "-3"); ("-z", "2.5")]%string.

End MoreSamples.

(** ** The inner loops *)

Section ScanFacts.
Context `{JSNumber}.
Variable heap : ref → Point.
Variable maxRadius : num.

Lemma push_fold (P : ref → bool) (l acc : list ref) :
  fold_left (λ covered point, if P point then covered ++ [point] else covered)
            l acc
  = acc ++ filter (λ p, P p = true) l.
Proof.
  revert acc. induction l as [|a l IH]; intros acc; simpl.
  - by rewrite app_nil_r.
  - rewrite IH. destruct (P a) eqn:E.
    + rewrite filter_cons_True by done. by rewrite <- app_assoc.
    + rewrite filter_cons_False; [done|]. by rewrite E.
Qed.

(** The inner loop keeps, in order and with repetitions, the entries of
    [uncoveredPoints] that pass the distance test. *)
Lemma coveredPoints_filter (c : ref) (u : list ref) :
  coveredPoints heap maxRadius c u
  = filter (λ p, within heap maxRadius c p = true) u.
Proof. unfold coveredPoints. by rewrite push_fold. Qed.

Lemma elem_of_coveredPoints (c p : ref) (u : list ref) :
  p ∈ coveredPoints heap maxRadius c u
  ↔ within heap maxRadius c p = true ∧ p ∈ u.
Proof. rewrite coveredPoints_filter. by rewrite list_elem_of_filter. Qed.

Lemma coveredPoints_length_le (c : ref) (u : list ref) :
  length (coveredPoints heap maxRadius c u) ≤ length u.
Proof. rewrite coveredPoints_filter. apply length_filter. Qed.

(** A point with finite coordinates is within any positive radius of
    itself. *)
Lemma within_self (c : ref) :
  finitePoint heap c → lt zero maxRadius = true →
  within heap maxRadius c c = true.
Proof. intros [Hx Hy] Hr. unfold within. by apply hypot_sub_diag. Qed.

Lemma scanned_step (u cands : list ref) (s : Scan) (a : ref) :
  scanned heap maxRadius u cands s →
  scanned heap maxRadius u (cands ++ [a]) (scanStep heap maxRadius u s a).
Proof.
  unfold scanned, scanStep. intros Hs.
  destruct (decide (maxCovered s < _)) as [Hlt|Hge]; simpl.
  - repeat split; [lia|].
    exists (length cands). split; [by rewrite list_lookup_middle|].
    assert (∀ c, c ∈ cands →
              length (coveredPoints heap maxRadius c u) ≤ maxCovered s) as Hle.
    { intros c Hc. destruct (bestCircle s) as [b|].
      - destruct Hs as (-> & _ & _ & _ & i & _ & Hmax & _). by apply Hmax.
      - destruct Hs as [_ Hz]. rewrite (Hz c Hc). lia. }
    split.
    + intros c [Hc| ->%list_elem_of_singleton]%elem_of_app; [|done].
      specialize (Hle c Hc). lia.
    + intros j c Hj Hjc. rewrite lookup_app_l in Hjc by done.
      apply list_elem_of_lookup_2 in Hjc. specialize (Hle c Hjc). lia.
  - destruct (bestCircle s) as [b|].
    + destruct Hs as (Hm & Hr & Hp & Hpos & i & Hi & Hmax & Hfirst).
      repeat split; try done.
      exists i. split; [|split].
      * rewrite lookup_app_l; [done|]. by eapply lookup_lt_Some.
      * intros c [Hc| ->%list_elem_of_singleton]%elem_of_app; [by apply Hmax|].
        lia.
      * intros j c Hj Hjc. apply (Hfirst j c Hj).
        rewrite lookup_app_l in Hjc; [done|].
        apply lookup_lt_Some in Hi. lia.
    + destruct Hs as [Hm Hz]. split; [done|].
      intros c [Hc| ->%list_elem_of_singleton]%elem_of_app; [by apply Hz|].
      lia.
Qed.

Lemma scanned_fold (u cands : list ref) :
  scanned heap maxRadius u cands
    (fold_left (scanStep heap maxRadius u) cands
               {| bestCircle := None; maxCovered := 0 |}).
Proof.
  induction cands as [|a cands IH] using rev_ind.
  - split; [done|]. by intros c ?%elem_of_nil.
  - rewrite fold_left_app. simpl. by apply scanned_step.
Qed.

Lemma scan_scanned (u : list ref) : scanned heap maxRadius u u (scan heap maxRadius u).
Proof. apply scanned_fold. Qed.

End ScanFacts.

(** ** Removing the covered points *)

Section RemovalFacts.

Lemma indexOf_Some (pt : ref) (u : list ref) (i : nat) :
  indexOf pt u = Some i →
  u !! i = Some pt ∧ ∀ j, j < i → u !! j ≠ Some pt.
Proof.
  revert i. induction u as [|a u IH]; intros i; simpl; [done|].
  destruct (decide (a = pt)) as [->|Hne].
  - intros [= <-]. split; [done|]. lia.
  - destruct (indexOf pt u) as [k|]; [|done].
    intros [= <-]. destruct (IH k eq_refl) as [Hk Hbefore].
    split; [done|]. intros [|j] Hj; simpl; [congruence|].
    apply Hbefore. lia.
Qed.

Lemma indexOf_None (pt : ref) (u : list ref) :
  indexOf pt u = None ↔ pt ∉ u.
Proof.
  induction u as [|a u IH]; simpl.
  - split; [intros _; apply not_elem_of_nil|done].
  - rewrite not_elem_of_cons. destruct (decide (a = pt)) as [->|Hne].
    + split; [done|]. by intros [? _].
    + destruct (indexOf pt u); split; try done.
      * intros [_ Hn]. by apply IH in Hn.
      * intros _. split; [done|]. by apply IH.
Qed.

Lemma indexOf_middle (pre rest : list ref) (pt : ref) :
  pt ∉ pre → indexOf pt (pre ++ pt :: rest) = Some (length pre).
Proof.
  induction pre as [|a pre IH]; simpl; intros Hn.
  - by rewrite decide_True.
  - apply not_elem_of_cons in Hn as [Hne Hn].
    rewrite decide_False by done. by rewrite IH.
Qed.

(** Splicing the first occurrence of a reference takes exactly that one
    entry out. *)
Lemma removeCovered_one (pt : ref) (u : list ref) :
  pt ∈ u → u ≡ₚ pt :: removeCovered [pt] u.
Proof.
  intros Hin. unfold removeCovered, splice1. simpl.
  destruct (indexOf pt u) as [i|] eqn:E.
  - apply indexOf_Some in E as [Hi _]. by apply delete_Permutation.
  - by apply indexOf_None in E.
Qed.

(** When the points to remove are all the entries that satisfy [P], in
    their order in the array, the splices leave the entries that do not. *)
Lemma removeCovered_filter_app (P : ref → bool) (u pre : list ref) :
  (∀ a, a ∈ pre → P a = false) →
  removeCovered (filter (λ p, P p = true) u) (pre ++ u)
  = pre ++ filter (λ p, P p = false) u.
Proof.
  revert pre. induction u as [|a u IH]; intros pre Hpre; [done|].
  destruct (P a) eqn:E.
  - rewrite filter_cons_True by done.
    rewrite (filter_cons_False (λ p, P p = false)) by (rewrite E; done).
    unfold removeCovered. simpl. rewrite indexOf_middle.
    + unfold splice1. rewrite delete_middle. by apply IH.
    + intros Hin. apply Hpre in Hin. congruence.
  - rewrite filter_cons_False by (rewrite E; done).
    rewrite (filter_cons_True (λ p, P p = false)) by done.
    rewrite (cons_middle a pre u), app_assoc. rewrite IH.
    + by rewrite <- app_assoc.
    + intros b [Hb| ->%list_elem_of_singleton]%elem_of_app; [by apply Hpre|done].
Qed.

Lemma removeCovered_filter (P : ref → bool) (u : list ref) :
  removeCovered (filter (λ p, P p = true) u) u
  = filter (λ p, P p = false) u.
Proof. apply (removeCovered_filter_app P u []). by intros a ?%elem_of_nil. Qed.

End RemovalFacts.

(** ** The outer loop *)

Section LoopFacts.
Context `{JSNumber}.
Variable heap : ref → Point.
Variable maxRadius : num.

Lemma whileLoop_acc (fuel : nat) (u : list ref) (acc : list Circle) :
  whileLoop heap fuel maxRadius u acc
  = extend acc (whileLoop heap fuel maxRadius u []).
Proof.
  revert u acc. induction fuel as [|fuel IH]; intros [|a u] acc; simpl;
    try by rewrite ?app_nil_r.
  destruct (bestCircle _) as [best|]; [|done].
  rewrite (IH _ (acc ++ [best])), (IH _ [best]).
  destruct (whileLoop heap fuel maxRadius _ []); simpl; try done.
  by rewrite <- app_assoc.
Qed.

Lemma whileLoop_emits (fuel : nat) (u : list ref) (cs : list Circle) :
  whileLoop heap fuel maxRadius u [] = Return cs →
  emits heap maxRadius u cs.
Proof.
  revert u cs. induction fuel as [|fuel IH]; intros [|a u] cs; simpl;
    try (intros [= <-]; constructor); try done.
  destruct (bestCircle _) as [best|] eqn:Hbest; [|done].
  rewrite whileLoop_acc.
  destruct (whileLoop heap fuel maxRadius _ []) as [rest| |] eqn:Hrest;
    simpl; try done.
  intros [= <-]. apply emits_step; [done|done|]. by apply IH.
Qed.

Lemma filter_split_length (P : ref → bool) (u : list ref) :
  length (filter (λ p, P p = true) u) + length (filter (λ p, P p = false) u)
  = length u.
Proof.
  induction u as [|a u IH]; [done|]. destruct (P a) eqn:E.
  - rewrite filter_cons_True by done.
    rewrite (filter_cons_False (λ p, P p = false)) by (rewrite E; done).
    simpl. lia.
  - rewrite filter_cons_False by (rewrite E; done).
    rewrite (filter_cons_True (λ p, P p = false)) by done.
    simpl. lia.
Qed.

(** One iteration: the points of the chosen circle are spliced out, and
    what stays are the entries farther than [maxRadius] from its center. *)
Lemma removeCovered_best (u : list ref) (best : Circle) :
  bestCircle (scan heap maxRadius u) = Some best →
  removeCovered (points best) u
  = filter (λ p, within heap maxRadius (center best) p = false) u.
Proof.
  intros Hbest. pose proof (scan_scanned heap maxRadius u) as Hs.
  unfold scanned in Hs. rewrite Hbest in Hs.
  destruct Hs as (_ & _ & -> & _). rewrite coveredPoints_filter.
  apply (removeCovered_filter (within heap maxRadius (center best))).
Qed.

Lemma removeCovered_best_length (u : list ref) (best : Circle) :
  bestCircle (scan heap maxRadius u) = Some best →
  length (removeCovered (points best) u) + length (points best) = length u
  ∧ 0 < length (points best).
Proof.
  intros Hbest. rewrite (removeCovered_best u best Hbest).
  pose proof (scan_scanned heap maxRadius u) as Hs.
  unfold scanned in Hs. rewrite Hbest in Hs.
  destruct Hs as (_ & _ & Hp & Hpos & _). split; [|done].
  rewrite Hp, coveredPoints_filter.
  pose proof (filter_split_length (within heap maxRadius (center best)) u).
  lia.
Qed.

(** The loop needs at most one iteration per remaining point: with that
    much fuel it never stops for lack of it. *)
Lemma whileLoop_fuel (fuel : nat) (u : list ref) (acc : list Circle) :
  length u ≤ fuel → whileLoop heap fuel maxRadius u acc ≠ OutOfFuel.
Proof.
  revert u acc. induction fuel as [|fuel IH]; intros [|a u] acc Hlen; simpl;
    try done; [simpl in Hlen; lia|].
  destruct (bestCircle _) as [best|] eqn:Hbest; [|done].
  apply IH. apply removeCovered_best_length in Hbest. simpl in *. lia.
Qed.

Lemma whileLoop_fuel_irrelevant (f1 f2 : nat) (u : list ref) (acc : list Circle) :
  length u ≤ f1 → length u ≤ f2 →
  whileLoop heap f1 maxRadius u acc = whileLoop heap f2 maxRadius u acc.
Proof.
  revert f2 u acc. induction f1 as [|f1 IH]; intros [|f2] [|a u] acc H1 H2;
    simpl in *; try done; try lia.
  destruct (bestCircle _) as [best|] eqn:Hbest; [|done].
  apply removeCovered_best_length in Hbest. simpl in *. apply IH; lia.
Qed.

(** On finite points and a positive radius the scan always finds a
    circle: the first candidate covers at least itself. *)
Lemma scan_finds (u : list ref) :
  u ≠ [] → Forall (finitePoint heap) u → lt zero maxRadius = true →
  is_Some (bestCircle (scan heap maxRadius u)).
Proof.
  intros Hne Hfin Hr. pose proof (scan_scanned heap maxRadius u) as Hs.
  unfold scanned in Hs. destruct (bestCircle _) as [b|]; [by eexists|].
  destruct Hs as [_ Hz]. destruct u as [|a u]; [done|].
  assert (a ∈ coveredPoints heap maxRadius a (a :: u)) as Hin.
  { apply elem_of_coveredPoints. split; [|by left].
    apply within_self; [|done]. by apply Forall_cons_1 in Hfin as [? _]. }
  specialize (Hz a (list_elem_of_here a u)).
  destruct (coveredPoints heap maxRadius a (a :: u)); [|done].
  by apply elem_of_nil in Hin.
Qed.

Lemma whileLoop_returns (fuel : nat) (u : list ref) :
  Forall (finitePoint heap) u → lt zero maxRadius = true →
  length u ≤ fuel →
  ∃ cs, whileLoop heap fuel maxRadius u [] = Return cs.
Proof.
  intros Hfin Hr. revert u Hfin.
  induction fuel as [|fuel IH]; intros [|a u] Hfin Hlen; simpl;
    try (by eexists); [simpl in Hlen; lia|].
  destruct (scan_finds (a :: u)) as [best Hbest]; try done.
  rewrite Hbest, whileLoop_acc.
  destruct (IH (removeCovered (points best) (a :: u))) as [cs ->].
  - rewrite (removeCovered_best _ _ Hbest). apply Forall_forall.
    intros p [_ Hp]%list_elem_of_filter. revert p Hp. by apply Forall_forall.
  - apply removeCovered_best_length in Hbest. simpl in *. lia.
  - by eexists.
Qed.

End LoopFacts.

(** ** What a run emits *)

Section CoverFacts.
Context `{JSNumber}.
Variable heap : ref → Point.
Variable maxRadius : num.

Lemma removeCovered_sublist (pts u : list ref) :
  removeCovered pts u `sublist_of` u.
Proof.
  revert u. induction pts as [|pt pts IH]; intros u; [done|].
  unfold removeCovered in *. simpl.
  destruct (indexOf pt u) as [i|]; [|apply IH].
  etrans; [apply IH|]. apply sublist_delete.
Qed.

Lemma uncoveredAt_sublist (input : list ref) (cs : list Circle) (k : nat) :
  uncoveredAt input cs k `sublist_of` input.
Proof.
  unfold uncoveredAt. revert input k.
  induction cs as [|c cs IH]; intros input [|k]; simpl; try done.
  etrans; [apply IH|]. apply removeCovered_sublist.
Qed.

Lemma filter_sublist_mono (P : ref → Prop) `{!∀ p, Decision (P p)}
    (l1 l2 : list ref) :
  l1 `sublist_of` l2 → filter P l1 `sublist_of` filter P l2.
Proof.
  induction 1 as [|a l1 l2 _ IH|a l1 l2 _ IH]; [done| |].
  - destruct (decide (P a)).
    + rewrite !filter_cons_True by done. by constructor.
    + by rewrite !filter_cons_False.
  - destruct (decide (P a)).
    + rewrite (filter_cons_True _ a l2) by done. by constructor.
    + by rewrite (filter_cons_False _ a l2).
Qed.

Lemma filter_split_perm (P : ref → bool) (u : list ref) :
  u ≡ₚ filter (λ p, P p = true) u ++ filter (λ p, P p = false) u.
Proof.
  induction u as [|a u IH]; [done|]. destruct (P a) eqn:E.
  - rewrite filter_cons_True by done.
    rewrite (filter_cons_False (λ p, P p = false)) by (rewrite E; done).
    simpl. by constructor.
  - rewrite filter_cons_False by (rewrite E; done).
    rewrite (filter_cons_True (λ p, P p = false)) by done.
    rewrite <- Permutation_middle. by constructor.
Qed.

(** The state in which each circle of a run was chosen. *)
Lemma emits_at (u : list ref) (cs : list Circle) (k : nat) (c : Circle) :
  emits heap maxRadius u cs → cs !! k = Some c →
  bestCircle (scan heap maxRadius (uncoveredAt u cs k)) = Some c.
Proof.
  intros Hrun. revert k. induction Hrun as [|u best rest Hne Hbest _ IH];
    intros [|k]; simpl; try done.
  - by intros [= <-].
  - apply IH.
Qed.

Lemma emits_covers (u : list ref) (cs : list Circle) :
  emits heap maxRadius u cs →
  ∀ p, p ∈ u → ∃ c, c ∈ cs ∧ within heap maxRadius (center c) p = true.
Proof.
  induction 1 as [|u best rest Hne Hbest _ IH]; intros p Hp.
  - by apply elem_of_nil in Hp.
  - destruct (within heap maxRadius (center best) p) eqn:E.
    + exists best. split; [by left|done].
    + destruct (IH p) as (c & Hc & Hw).
      * rewrite (removeCovered_best _ _ _ _ Hbest).
        by apply list_elem_of_filter.
      * exists c. split; [by right|done].
Qed.

Lemma emits_length (u : list ref) (cs : list Circle) :
  emits heap maxRadius u cs → length cs ≤ length u.
Proof.
  induction 1 as [|u best rest Hne Hbest _ IH]; [done|].
  apply removeCovered_best_length in Hbest. simpl. lia.
Qed.

Lemma emits_radius (u : list ref) (cs : list Circle) :
  emits heap maxRadius u cs → ∀ c, c ∈ cs → radius c = maxRadius.
Proof.
  induction 1 as [|u best rest Hne Hbest _ IH]; intros c Hc.
  - by apply elem_of_nil in Hc.
  - apply elem_of_cons in Hc as [->|Hc]; [|by apply IH].
    pose proof (scan_scanned heap maxRadius u) as Hs.
    unfold scanned in Hs. rewrite Hbest in Hs. by destruct Hs as (_ & ? & _).
Qed.

(** The covered subsets of the circles split the input: every entry of
    the input is in the subset of exactly one circle. *)
Lemma emits_partition (u : list ref) (cs : list Circle) :
  emits heap maxRadius u cs → concat (map points cs) ≡ₚ u.
Proof.
  induction 1 as [|u best rest Hne Hbest _ IH]; [done|].
  simpl. rewrite IH, (removeCovered_best _ _ _ _ Hbest).
  pose proof (scan_scanned heap maxRadius u) as Hs.
  unfold scanned in Hs. rewrite Hbest in Hs.
  destruct Hs as (_ & _ & -> & _). rewrite coveredPoints_filter.
  symmetry. apply (filter_split_perm (within heap maxRadius (center best))).
Qed.

(** Every circle of a run was scanned in some part of the array the run
    started from. *)
Lemma emits_origin (u : list ref) (cs : list Circle) :
  emits heap maxRadius u cs →
  ∀ c, c ∈ cs →
    ∃ u', u' `sublist_of` u ∧ center c ∈ u' ∧
          points c = coveredPoints heap maxRadius (center c) u'.
Proof.
  induction 1 as [|u best rest Hne Hbest _ IH]; intros c Hc.
  - by apply elem_of_nil in Hc.
  - apply elem_of_cons in Hc as [->|Hc].
    + exists u. pose proof (scan_scanned heap maxRadius u) as Hs.
      unfold scanned in Hs. rewrite Hbest in Hs.
      destruct Hs as (_ & _ & Hp & _ & i & Hi & _).
      split; [done|]. split; [by eapply list_elem_of_lookup_2|done].
    + destruct (IH c Hc) as (u' & Hsub & Hin & Hp).
      exists u'. split; [|done].
      etrans; [done|]. apply removeCovered_sublist.
Qed.

Lemma emits_head_max (u : list ref) (best : Circle) (rest : list Circle) :
  emits heap maxRadius u (best :: rest) →
  ∀ c, c ∈ rest → length (points c) ≤ length (points best).
Proof.
  inversion 1 as [|u0 b r Hne Hbest Hrest]; subst. intros c Hc.
  destruct (emits_origin _ _ Hrest c Hc) as (u' & Hsub & Hin & ->).
  pose proof (scan_scanned heap maxRadius u) as Hs.
  unfold scanned in Hs. rewrite Hbest in Hs.
  destruct Hs as (_ & _ & _ & _ & i & _ & Hmax & _).
  assert (u' `sublist_of` u) as Hsub'.
  { etrans; [done|]. apply removeCovered_sublist. }
  etrans; [|apply (Hmax (center c))].
  - rewrite !coveredPoints_filter. by apply sublist_length, filter_sublist_mono.
  - by eapply elem_of_sublist.
Qed.

Lemma emits_monotone (u : list ref) (cs : list Circle) :
  emits heap maxRadius u cs →
  ∀ i j ci cj, i < j → cs !! i = Some ci → cs !! j = Some cj →
               length (points cj) ≤ length (points ci).
Proof.
  induction 1 as [|u best rest Hne Hbest Hrest IH];
    intros i j ci cj Hij Hi Hj; [done|].
  destruct j as [|j]; [lia|]. destruct i as [|i]; simpl in *.
  - injection Hi as <-.
    apply (emits_head_max u best rest); [by constructor|].
    by eapply list_elem_of_lookup_2.
  - apply (IH i j); [lia|done|done].
Qed.

End CoverFacts.

(** ** Two runs on the same coordinates *)

Section TwoRuns.
Context `{JSNumber}.
Variables heap1 heap2 : ref → Point.
Variable maxRadius : num.

Lemma alike_map (l1 l2 : list ref) :
  map heap1 l1 = map heap2 l2 ↔ Forall2 (alike heap1 heap2) l1 l2.
Proof.
  split.
  - revert l2. induction l1 as [|a l1 IH]; intros [|b l2]; simpl; try done.
    intros [= Hab Hl]. constructor; [done|by apply IH].
  - induction 1 as [|a b l1 l2 Hab _ IH]; simpl; [done|].
    unfold alike in Hab. by rewrite Hab, IH.
Qed.

Lemma within_alike (c c' p p' : ref) :
  alike heap1 heap2 c c' → alike heap1 heap2 p p' →
  within heap1 maxRadius c p = within heap2 maxRadius c' p'.
Proof. unfold alike, within. by intros -> ->. Qed.

Lemma coveredPoints_alike (c c' : ref) (u1 u2 : list ref) :
  alike heap1 heap2 c c' → Forall2 (alike heap1 heap2) u1 u2 →
  Forall2 (alike heap1 heap2) (coveredPoints heap1 maxRadius c u1)
                (coveredPoints heap2 maxRadius c' u2).
Proof.
  intros Hc Hu. rewrite !coveredPoints_filter.
  apply Forall2_filter; [|done].
  intros p p' Hp. by rewrite (within_alike c c' p p').
Qed.

Lemma scanStep_alike (u1 u2 : list ref) (s1 s2 : Scan) (c c' : ref) :
  Forall2 (alike heap1 heap2) u1 u2 → alikeScan heap1 heap2 s1 s2 → alike heap1 heap2 c c' →
  alikeScan heap1 heap2 (scanStep heap1 maxRadius u1 s1 c)
            (scanStep heap2 maxRadius u2 s2 c').
Proof.
  intros Hu [Hm Hb] Hc. unfold scanStep.
  pose proof (coveredPoints_alike c c' u1 u2 Hc Hu) as Hcov.
  rewrite <- Hm, <- (Forall2_length _ _ _ Hcov).
  destruct (decide (maxCovered s1 < _)); [|done].
  split; simpl; [done|]. by constructor.
Qed.

Lemma scan_fold_alike (u1 u2 cands1 cands2 : list ref) (s1 s2 : Scan) :
  Forall2 (alike heap1 heap2) u1 u2 → Forall2 (alike heap1 heap2) cands1 cands2 → alikeScan heap1 heap2 s1 s2 →
  alikeScan heap1 heap2 (fold_left (scanStep heap1 maxRadius u1) cands1 s1)
            (fold_left (scanStep heap2 maxRadius u2) cands2 s2).
Proof.
  intros Hu Hcands. revert s1 s2.
  induction Hcands as [|c c' l1 l2 Hc _ IH]; intros s1 s2 Hs; simpl; [done|].
  apply IH. by apply scanStep_alike.
Qed.

Lemma scan_alike (u1 u2 : list ref) :
  Forall2 (alike heap1 heap2) u1 u2 →
  alikeScan heap1 heap2 (scan heap1 maxRadius u1) (scan heap2 maxRadius u2).
Proof.
  intros Hu. apply scan_fold_alike; [done|done|]. split; [done|constructor].
Qed.

Lemma whileLoop_alike (fuel : nat) (u1 u2 : list ref) (acc1 acc2 : list Circle) :
  Forall2 (alike heap1 heap2) u1 u2 → Forall2 (alikeCircle heap1 heap2) acc1 acc2 →
  alikeCompletion heap1 heap2 (whileLoop heap1 fuel maxRadius u1 acc1)
                  (whileLoop heap2 fuel maxRadius u2 acc2).
Proof.
  revert u1 u2 acc1 acc2. induction fuel as [|fuel IH];
    intros u1 u2 acc1 acc2 Hu Hacc; destruct Hu as [|a b u1 u2 Hab Hu];
    simpl; try done.
  destruct (scan_alike (a :: u1) (b :: u2)) as [_ Hbest]; [by constructor|].
  destruct (bestCircle (scan heap1 maxRadius (a :: u1))) as [b1|] eqn:E1;
    destruct (bestCircle (scan heap2 maxRadius (b :: u2))) as [b2|] eqn:E2;
    inversion Hbest as [? ? Hb|]; subst; [|done].
  apply IH.
  - rewrite (removeCovered_best _ _ _ _ E1), (removeCovered_best _ _ _ _ E2).
    apply Forall2_filter; [|by constructor].
    intros p p' Hp. destruct Hb as (Hc & _).
    by rewrite (within_alike _ _ p p' Hc Hp).
  - apply Forall2_app; [done|]. by constructor.
Qed.

Lemma readCircle_alike (cs1 cs2 : list Circle) :
  Forall2 (alikeCircle heap1 heap2) cs1 cs2 →
  map (readCircle heap1) cs1 = map (readCircle heap2) cs2.
Proof.
  induction 1 as [|b1 b2 cs1 cs2 (Hc & Hr & Hp) _ IH]; simpl; [done|].
  rewrite IH. unfold readCircle. apply alike_map in Hp.
  unfold alike in Hc. by rewrite Hc, Hr, Hp.
Qed.

End TwoRuns.

(** ** Properties of [computeMinimumCircles] *)

(** C1 (full coverage).  On points with finite coordinates and a radius
    greater than zero, the call returns, and every input point passes the
    test [distance <= maxRadius] (the closed disk) against the center of at
    least one returned circle. *)
Theorem full_coverage `{JSNumber} (heap : ref → Point) (fuel : nat)
    (input : list ref) (maxRadius : num) :
  Forall (finitePoint heap) input → lt zero maxRadius = true →
  length input ≤ fuel →
  ∃ circles,
    computeMinimumCircles heap fuel input maxRadius = Return circles ∧
    ∀ p, p ∈ input →
         ∃ c, c ∈ circles ∧ within heap maxRadius (center c) p = true.
Proof.
  intros Hfin Hr Hfuel.
  destruct (whileLoop_returns heap maxRadius fuel input Hfin Hr Hfuel)
    as [circles Hrun].
  exists circles. split; [done|].
  by apply (emits_covers heap maxRadius input), (whileLoop_emits heap maxRadius fuel).
Qed.

(** C2 (greedy selection, first candidate wins ties).  In a run that
    returns, the [k]-th circle is what the scan leaves in [bestCircle] in
    the state [uncoveredAt input circles k] of [uncoveredPoints]; its
    center sits at some index [i] of that array, its [points] are the entries of the array within
    [maxRadius] of that center, no candidate of the array covers more, and
    every candidate before index [i] covers strictly fewer. *)
Theorem greedy_first_candidate `{JSNumber} (heap : ref → Point) (fuel : nat)
    (input : list ref) (maxRadius : num) (circles : list Circle) :
  computeMinimumCircles heap fuel input maxRadius = Return circles →
  ∀ k best, circles !! k = Some best →
    let uncovered := uncoveredAt input circles k in
    bestCircle (scan heap maxRadius uncovered) = Some best ∧
    ∃ i, uncovered !! i = Some (center best) ∧
         points best = coveredPoints heap maxRadius (center best) uncovered ∧
         (∀ c, c ∈ uncovered →
               length (coveredPoints heap maxRadius c uncovered)
               ≤ length (points best)) ∧
         (∀ j c, j < i → uncovered !! j = Some c →
                 length (coveredPoints heap maxRadius c uncovered)
                 < length (points best)).
Proof.
  intros Hrun k best Hk uncovered.
  apply whileLoop_emits in Hrun.
  pose proof (emits_at heap maxRadius input circles k best Hrun Hk) as Hbest.
  pose proof (scan_scanned heap maxRadius uncovered) as Hs.
  unfold scanned in Hs. fold uncovered in Hbest. rewrite Hbest in Hs.
  destruct Hs as (_ & _ & Hp & _ & i & Hi & Hmax & Hfirst).
  split; [done|]. exists i. by repeat split.
Qed.

(** C4 (center validity).  In a run that returns, the center of each
    circle is a reference held by [uncoveredPoints] when the circle was
    chosen, hence one of the input references, and its coordinates are
    those of an input point. *)
Theorem center_validity `{JSNumber} (heap : ref → Point) (fuel : nat)
    (input : list ref) (maxRadius : num) (circles : list Circle) :
  computeMinimumCircles heap fuel input maxRadius = Return circles →
  ∀ k c, circles !! k = Some c →
    center c ∈ uncoveredAt input circles k ∧
    center c ∈ input ∧
    ∃ p, p ∈ input ∧ x (heap p) = x (heap (center c))
                   ∧ y (heap p) = y (heap (center c)).
Proof.
  intros Hrun k c Hk. apply whileLoop_emits in Hrun.
  pose proof (emits_at heap maxRadius input circles k c Hrun Hk) as Hbest.
  pose proof (scan_scanned heap maxRadius (uncoveredAt input circles k)) as Hs.
  unfold scanned in Hs. rewrite Hbest in Hs.
  destruct Hs as (_ & _ & _ & _ & i & Hi & _).
  apply list_elem_of_lookup_2 in Hi.
  assert (center c ∈ input) as Hin.
  { eapply elem_of_sublist; [done|]. apply uncoveredAt_sublist. }
  split; [done|]. split; [done|]. by exists (center c).
Qed.

(** C8 (fixed radius).  Every circle of a run that returns carries the
    [maxRadius] the function was called with. *)
Theorem fixed_radius `{JSNumber} (heap : ref → Point) (fuel : nat)
    (input : list ref) (maxRadius : num) (circles : list Circle) :
  computeMinimumCircles heap fuel input maxRadius = Return circles →
  ∀ c, c ∈ circles → radius c = maxRadius.
Proof.
  intros Hrun. apply whileLoop_emits in Hrun.
  by apply (emits_radius heap maxRadius input).
Qed.

(** C6 (boundedness, empty input).  On valid input the call returns at
    most as many circles as there are input points: none for the empty
    input, at least one otherwise. *)
Theorem boundedness `{JSNumber} (heap : ref → Point) (fuel : nat)
    (input : list ref) (maxRadius : num) :
  Forall (finitePoint heap) input → lt zero maxRadius = true →
  length input ≤ fuel →
  ∃ circles,
    computeMinimumCircles heap fuel input maxRadius = Return circles ∧
    length circles ≤ length input ∧
    (input = [] → circles = []) ∧
    (input ≠ [] → 1 ≤ length circles).
Proof.
  intros Hfin Hr Hfuel.
  destruct (whileLoop_returns heap maxRadius fuel input Hfin Hr Hfuel)
    as [circles Hrun].
  exists circles. split; [done|].
  apply whileLoop_emits in Hrun. split; [by eapply emits_length|].
  inversion Hrun; subst; split; try done. simpl. lia.
Qed.

(** C9 (non-increasing counts).  On valid input the call returns, and a
    later circle never covered more points at its selection than an
    earlier one. *)
Theorem counts_non_increasing `{JSNumber} (heap : ref → Point) (fuel : nat)
    (input : list ref) (maxRadius : num) :
  Forall (finitePoint heap) input → lt zero maxRadius = true →
  length input ≤ fuel →
  ∃ circles,
    computeMinimumCircles heap fuel input maxRadius = Return circles ∧
    ∀ i j ci cj, i < j → circles !! i = Some ci → circles !! j = Some cj →
                 length (points cj) ≤ length (points ci).
Proof.
  intros Hfin Hr Hfuel.
  destruct (whileLoop_returns heap maxRadius fuel input Hfin Hr Hfuel)
    as [circles Hrun].
  exists circles. split; [done|].
  apply whileLoop_emits in Hrun. by apply (emits_monotone heap maxRadius input).
Qed.

(** C7 (termination).  On finite points and a positive radius, every
    iteration of the [while] loop finds a circle whose center is among its
    own covered points and leaves [uncoveredPoints] strictly shorter; hence
    as many iterations as there are input points are enough for the call
    to return, and it returns one circle per iteration made. *)
Theorem termination `{JSNumber} (heap : ref → Point) (input : list ref)
    (maxRadius : num) :
  Forall (finitePoint heap) input → lt zero maxRadius = true →
  (∀ u, u ≠ [] → u `sublist_of` input →
        ∃ best, bestCircle (scan heap maxRadius u) = Some best ∧
                center best ∈ points best ∧
                length (removeCovered (points best) u) < length u) ∧
  (∀ fuel, length input ≤ fuel →
           ∃ circles,
             computeMinimumCircles heap fuel input maxRadius = Return circles ∧
             length circles ≤ length input).
Proof.
  intros Hfin Hr. split.
  - intros u Hne Hsub.
    assert (Forall (finitePoint heap) u) as Hfin'.
    { apply Forall_forall. intros p Hp.
      apply (proj1 (Forall_forall _ _) Hfin). by eapply elem_of_sublist. }
    destruct (scan_finds heap maxRadius u Hne Hfin' Hr) as [best Hbest].
    exists best. split; [done|].
    pose proof (scan_scanned heap maxRadius u) as Hs.
    unfold scanned in Hs. rewrite Hbest in Hs.
    destruct Hs as (_ & _ & Hp & _ & i & Hi & _).
    apply list_elem_of_lookup_2 in Hi. split.
    + rewrite Hp. apply elem_of_coveredPoints. split; [|done].
      apply within_self; [|done].
      by apply (proj1 (Forall_forall _ _) Hfin').
    + apply removeCovered_best_length in Hbest. lia.
  - intros fuel Hfuel.
    destruct (whileLoop_returns heap maxRadius fuel input Hfin Hr Hfuel)
      as [circles Hrun].
    exists circles. split; [done|].
    apply whileLoop_emits in Hrun. by eapply emits_length.
Qed.

(** C10 (determinism).  Two runs on point sequences of the same
    coordinates in the same order, with the same radius, end the same way
    and, when they return, return circle sequences that read the same, in
    the same order; this holds whichever objects carry the coordinates in
    each run and whatever (sufficient) iteration bound each run is given. *)
Theorem determinism `{JSNumber} (heap1 heap2 : ref → Point) (fuel1 fuel2 : nat)
    (input1 input2 : list ref) (maxRadius : num) :
  map heap1 input1 = map heap2 input2 →
  length input1 ≤ fuel1 → length input2 ≤ fuel2 →
  observe heap1 (computeMinimumCircles heap1 fuel1 input1 maxRadius)
  = observe heap2 (computeMinimumCircles heap2 fuel2 input2 maxRadius).
Proof.
  intros Hsame Hf1 Hf2. unfold computeMinimumCircles.
  assert (length input1 = length input2) as Hlen.
  { by rewrite <- (length_map heap1), Hsame, length_map. }
  rewrite (whileLoop_fuel_irrelevant heap1 maxRadius fuel1 (length input1))
    by done.
  rewrite (whileLoop_fuel_irrelevant heap2 maxRadius fuel2 (length input1))
    by lia.
  apply alike_map in Hsame.
  pose proof (whileLoop_alike heap1 heap2 maxRadius (length input1)
                input1 input2 [] [] Hsame ltac:(constructor)) as Hrel.
  destruct (whileLoop heap1 _ _ input1 []) as [cs1|e1|],
           (whileLoop heap2 _ _ input2 []) as [cs2|e2|];
    simpl in *; try done.
  - f_equal. by apply readCircle_alike.
  - by subst.
Qed.

(** C5 (duplicates are handled by identity).  The covered subset of a
    candidate keeps every entry of [uncoveredPoints] that passes the
    distance test, one per occurrence; splicing out a point takes out one
    entry, the first that is this very reference, and leaves all others;
    in a run that returns, the covered subsets of the circles together are
    the input, entry for entry; and three points of the same finite
    coordinates and any positive radius, such as [(5,5), (5,5), (5,5)] and
    radius [1], give one circle, centered on the first, covering three. *)
Theorem duplicates_by_identity `{JSNumber} (heap : ref → Point) (fuel : nat)
    (maxRadius : num) :
  (∀ c u, coveredPoints heap maxRadius c u
          = filter (λ p, within heap maxRadius c p = true) u) ∧
  (∀ pt u, pt ∈ u → u ≡ₚ pt :: removeCovered [pt] u) ∧
  (∀ input circles,
     computeMinimumCircles heap fuel input maxRadius = Return circles →
     concat (map points circles) ≡ₚ input) ∧
  (∀ a b c,
     heap b = heap a → heap c = heap a → finitePoint heap a →
     lt zero maxRadius = true → 3 ≤ fuel →
     computeMinimumCircles heap fuel [a; b; c] maxRadius
     = Return [ {| center := a; radius := maxRadius; points := [a; b; c] |} ]).
Proof.
  split; [apply coveredPoints_filter|].
  split; [apply removeCovered_one|].
  split.
  - intros input circles Hrun. apply whileLoop_emits in Hrun.
    by apply (emits_partition heap maxRadius).
  - intros a b c Hb Hc Hfin Hr Hfuel.
    assert (∀ p q, p ∈ [a; b; c] → q ∈ [a; b; c] →
                   within heap maxRadius p q = true) as Hall.
    { assert (∀ p, p ∈ [a; b; c] → heap p = heap a) as Hheap.
      { intros p Hp. repeat (apply elem_of_cons in Hp as [->|Hp]); try done.
        by apply elem_of_nil in Hp. }
      intros p q Hp Hq. unfold within.
      rewrite (Hheap p Hp), (Hheap q Hq).
      destruct Hfin. by apply hypot_sub_diag. }
    assert (∀ p, p ∈ [a; b; c] →
                 coveredPoints heap maxRadius p [a; b; c] = [a; b; c]) as Hcov.
    { intros p Hp. rewrite coveredPoints_filter.
      rewrite !filter_cons_True, filter_nil; try done;
        apply Hall; try done; repeat constructor. }
    assert (bestCircle (scan heap maxRadius [a; b; c])
            = Some {| center := a; radius := maxRadius; points := [a; b; c] |})
      as Hbest.
    { unfold scan. simpl. unfold scanStep at 3.
      rewrite (Hcov a) by repeat constructor. simpl.
      unfold scanStep at 2. rewrite (Hcov b) by repeat constructor. simpl.
      unfold scanStep. rewrite (Hcov c) by repeat constructor. done. }
    destruct fuel as [|fuel]; [lia|].
    unfold computeMinimumCircles. simpl whileLoop. rewrite Hbest.
    rewrite (removeCovered_best _ _ _ _ Hbest). simpl center.
    assert (filter (λ p, within heap maxRadius a p = false) [a; b; c] = [])
      as ->; [|by destruct fuel].
    rewrite !filter_cons_False, filter_nil; try done;
      rewrite Hall; try done; repeat constructor.
Qed.

(** ** The checks on the arguments *)

(** C3, amended.  The script validates the radius option only: when it is
    absent, NaN, zero or negative, the script prints its message and exits
    with status 1, whatever the input file holds, so no circle is computed. *)
Theorem bad_radius_rejected `{JSNumber} (fuel : nat) (options : Cli.Options.t)
    (file : Cli.InputFile) :
  Cli.Options.radius options = None
  ∨ (∃ r, Cli.Options.radius options = Some r ∧
          (isNaN r = true ∨ toBoolean r = false ∨ le r zero = true)) →
  Cli.dzzones fuel options file
  = Cli.Exit1 (match Cli.present (Cli.Options.input options) with
               | None => Cli.inputRequired
               | Some _ => Cli.radiusRequired
               end).
Proof.
  intros Hbad. unfold Cli.dzzones.
  destruct (Cli.present (Cli.Options.input options)); [|done].
  assert (Cli.acceptedRadius (Cli.Options.radius options) = None) as ->; [|done].
  destruct Hbad as [ -> | (r & -> & Hr) ]; [done|]. simpl.
  destruct Hr as [ -> | [ -> | -> ] ]; simpl; [|done|]; by rewrite ?orb_true_r.
Qed.

(** C3 as stated fails.  [--radius Infinity] is not a finite number, yet
    it passes the check of line 26 and circles are printed, an empty list
    of them when the file has no objects.  A coordinate that is not finite
    is not looked at before the computation: on a finite point followed by
    one with [x = Infinity] and radius 1, the first scan chooses a circle
    around the finite point, and the second iteration throws a [TypeError]
    from inside the loop. *)
Lemma invalid_arguments_not_rejected :
  isFinite Samples.infinity = false ∧
  Cli.dzzones 1 (Samples.options (Some Samples.infinity))
              (Cli.Parsed [(Samples.fin 0, Samples.fin 7, Samples.fin 0)])
  = Cli.Printed [ {| Cli.ztype := "safezone"; Cli.zcoordsx := Samples.fin 0;
                     Cli.zcoordsy := Samples.fin 0;
                     Cli.zradius := Samples.infinity; Cli.zsid := "1" |} ] ∧
  Cli.dzzones 0 (Samples.options (Some Samples.infinity)) (Cli.Parsed [])
  = Cli.Printed [] ∧
  isFinite (x (Cli.heapOf Samples.stray 1)) = false ∧
  bestCircle (scan (Cli.heapOf Samples.stray) (Samples.fin 1) [0; 1])
  = Some {| center := 0; radius := Samples.fin 1; points := [0] |} ∧
  Cli.dzzones 2 (Samples.options (Some (Samples.fin 1)))
              (Cli.Parsed [(Samples.fin 0, Samples.fin 7, Samples.fin 0);
                           (Samples.infinity, Samples.fin 7, Samples.fin 0)])
  = Cli.Uncaught TypeError.
Proof. repeat split; vm_compute; reflexivity. Qed.

(** ** The scenarios of the specification *)

(** One cluster: [(0,0), (1,0), (0,1)] with radius 2 give one circle. *)
Example single_cluster :
  computeMinimumCircles
    (Cli.heapOf [Samples.at_ 0 0; Samples.at_ 1 0; Samples.at_ 0 1]) 3
    [0; 1; 2] (Samples.fin 2)
  = Return [ {| center := 0; radius := Samples.fin 2; points := [0; 1; 2] |} ].
Proof. vm_compute. reflexivity. Qed.

(** Two clusters far apart give two circles, one centered in each. *)
Example two_clusters :
  computeMinimumCircles
    (Cli.heapOf [Samples.at_ 0 0; Samples.at_ 0 (1 # 2);
                 Samples.at_ 100 100; Samples.at_ 100 (201 # 2)]) 4
    [0; 1; 2; 3] (Samples.fin 1)
  = Return [ {| center := 0; radius := Samples.fin 1; points := [0; 1] |};
             {| center := 2; radius := Samples.fin 1; points := [2; 3] |} ].
Proof. vm_compute. reflexivity. Qed.

(** Three isolated points give three circles, one on each point. *)
Example isolated_points :
  computeMinimumCircles
    (Cli.heapOf [Samples.at_ 0 0; Samples.at_ 10 0; Samples.at_ 0 10]) 3
    [0; 1; 2] (Samples.fin 1)
  = Return [ {| center := 0; radius := Samples.fin 1; points := [0] |};
             {| center := 1; radius := Samples.fin 1; points := [1] |};
             {| center := 2; radius := Samples.fin 1; points := [2] |} ].
Proof. vm_compute. reflexivity. Qed.

(** A tie: on [line] the candidates [(2,0)] and [(1,0)] both cover three
    points; the one met first, [(2,0)], is chosen although its coordinates
    are the larger. *)
Example tie_break :
  computeMinimumCircles Samples.lineHeap 4 Samples.lineRefs (Samples.fin 1)
  = Return Samples.lineCircles ∧
  length (coveredPoints Samples.lineHeap (Samples.fin 1) 2 Samples.lineRefs) = 3.
Proof. split; vm_compute; reflexivity. Qed.

(** The disk is closed: a point at distance exactly [maxRadius] is covered. *)
Example closed_disk :
  within (Cli.heapOf [Samples.at_ 0 0; Samples.at_ 3 4]) (Samples.fin 5) 0 1
  = true.
Proof. reflexivity. Qed.

(** The same object listed twice is spliced out twice. *)
Example aliased_entries :
  computeMinimumCircles (Cli.heapOf [Samples.at_ 5 5]) 2 [0; 0] (Samples.fin 1)
  = Return [ {| center := 0; radius := Samples.fin 1; points := [0; 0] |} ].
Proof. vm_compute. reflexivity. Qed.

(** ** The theorems at sample inputs *)

Lemma full_coverage_witness :
  Forall (finitePoint Samples.lineHeap) Samples.lineRefs ∧
  lt zero (Samples.fin 1) = true ∧
  length Samples.lineRefs ≤ 4 ∧
  ∃ circles,
    computeMinimumCircles Samples.lineHeap 4 Samples.lineRefs (Samples.fin 1)
    = Return circles ∧
    ∀ p, p ∈ Samples.lineRefs →
         ∃ c, c ∈ circles ∧
              within Samples.lineHeap (Samples.fin 1) (center c) p = true.
Proof.
  assert (Forall (finitePoint Samples.lineHeap) Samples.lineRefs) as Hfin
    by repeat constructor.
  assert (length Samples.lineRefs ≤ 4) as Hfuel by (simpl; lia).
  split; [done|]. split; [reflexivity|]. split; [done|].
  by apply (full_coverage Samples.lineHeap 4 Samples.lineRefs (Samples.fin 1)).
Defined.

Lemma greedy_first_candidate_witness :
  computeMinimumCircles Samples.lineHeap 4 Samples.lineRefs (Samples.fin 1)
  = Return Samples.lineCircles ∧
  ∀ k best, Samples.lineCircles !! k = Some best →
    let uncovered := uncoveredAt Samples.lineRefs Samples.lineCircles k in
    bestCircle (scan Samples.lineHeap (Samples.fin 1) uncovered) = Some best ∧
    ∃ i, uncovered !! i = Some (center best) ∧
         points best
         = coveredPoints Samples.lineHeap (Samples.fin 1) (center best)
                         uncovered ∧
         (∀ c, c ∈ uncovered →
               length (coveredPoints Samples.lineHeap (Samples.fin 1) c
                                     uncovered)
               ≤ length (points best)) ∧
         (∀ j c, j < i → uncovered !! j = Some c →
                 length (coveredPoints Samples.lineHeap (Samples.fin 1) c
                                       uncovered)
                 < length (points best)).
Proof.
  assert (computeMinimumCircles Samples.lineHeap 4 Samples.lineRefs
            (Samples.fin 1) = Return Samples.lineCircles) as Hrun
    by (vm_compute; reflexivity).
  split; [done|].
  exact (greedy_first_candidate Samples.lineHeap 4 Samples.lineRefs
           (Samples.fin 1) Samples.lineCircles Hrun).
Defined.

Lemma center_validity_witness :
  computeMinimumCircles Samples.lineHeap 4 Samples.lineRefs (Samples.fin 1)
  = Return Samples.lineCircles ∧
  ∀ k c, Samples.lineCircles !! k = Some c →
    center c ∈ uncoveredAt Samples.lineRefs Samples.lineCircles k ∧
    center c ∈ Samples.lineRefs ∧
    ∃ p, p ∈ Samples.lineRefs ∧
         x (Samples.lineHeap p) = x (Samples.lineHeap (center c)) ∧
         y (Samples.lineHeap p) = y (Samples.lineHeap (center c)).
Proof.
  assert (computeMinimumCircles Samples.lineHeap 4 Samples.lineRefs
            (Samples.fin 1) = Return Samples.lineCircles) as Hrun
    by (vm_compute; reflexivity).
  split; [done|].
  exact (center_validity Samples.lineHeap 4 Samples.lineRefs
           (Samples.fin 1) Samples.lineCircles Hrun).
Defined.

Lemma fixed_radius_witness :
  computeMinimumCircles Samples.lineHeap 4 Samples.lineRefs (Samples.fin 1)
  = Return Samples.lineCircles ∧
  ∀ c, c ∈ Samples.lineCircles → radius c = Samples.fin 1.
Proof.
  assert (computeMinimumCircles Samples.lineHeap 4 Samples.lineRefs
            (Samples.fin 1) = Return Samples.lineCircles) as Hrun
    by (vm_compute; reflexivity).
  split; [done|].
  exact (fixed_radius Samples.lineHeap 4 Samples.lineRefs
           (Samples.fin 1) Samples.lineCircles Hrun).
Defined.

Lemma boundedness_witness :
  Forall (finitePoint Samples.lineHeap) Samples.lineRefs ∧
  lt zero (Samples.fin 1) = true ∧
  length Samples.lineRefs ≤ 4 ∧
  ∃ circles,
    computeMinimumCircles Samples.lineHeap 4 Samples.lineRefs (Samples.fin 1)
    = Return circles ∧
    length circles ≤ length Samples.lineRefs ∧
    (Samples.lineRefs = [] → circles = []) ∧
    (Samples.lineRefs ≠ [] → 1 ≤ length circles).
Proof.
  assert (Forall (finitePoint Samples.lineHeap) Samples.lineRefs) as Hfin
    by repeat constructor.
  assert (length Samples.lineRefs ≤ 4) as Hfuel by (simpl; lia).
  split; [done|]. split; [reflexivity|]. split; [done|].
  by apply (boundedness Samples.lineHeap 4 Samples.lineRefs (Samples.fin 1)).
Defined.

Lemma counts_non_increasing_witness :
  Forall (finitePoint Samples.lineHeap) Samples.lineRefs ∧
  lt zero (Samples.fin 1) = true ∧
  length Samples.lineRefs ≤ 4 ∧
  ∃ circles,
    computeMinimumCircles Samples.lineHeap 4 Samples.lineRefs (Samples.fin 1)
    = Return circles ∧
    ∀ i j ci cj, i < j → circles !! i = Some ci → circles !! j = Some cj →
                 length (points cj) ≤ length (points ci).
Proof.
  assert (Forall (finitePoint Samples.lineHeap) Samples.lineRefs) as Hfin
    by repeat constructor.
  assert (length Samples.lineRefs ≤ 4) as Hfuel by (simpl; lia).
  split; [done|]. split; [reflexivity|]. split; [done|].
  by apply (counts_non_increasing Samples.lineHeap 4 Samples.lineRefs
              (Samples.fin 1)).
Defined.

Lemma termination_witness :
  Forall (finitePoint Samples.lineHeap) Samples.lineRefs ∧
  lt zero (Samples.fin 1) = true ∧
  (∀ u, u ≠ [] → u `sublist_of` Samples.lineRefs →
        ∃ best,
          bestCircle (scan Samples.lineHeap (Samples.fin 1) u) = Some best ∧
          center best ∈ points best ∧
          length (removeCovered (points best) u) < length u) ∧
  (∀ fuel, length Samples.lineRefs ≤ fuel →
           ∃ circles,
             computeMinimumCircles Samples.lineHeap fuel Samples.lineRefs
                                   (Samples.fin 1) = Return circles ∧
             length circles ≤ length Samples.lineRefs).
Proof.
  assert (Forall (finitePoint Samples.lineHeap) Samples.lineRefs) as Hfin
    by repeat constructor.
  split; [done|]. split; [reflexivity|].
  by apply (termination Samples.lineHeap Samples.lineRefs (Samples.fin 1)).
Defined.

Lemma determinism_witness :
  map Samples.lineHeap Samples.lineRefs
  = map (Cli.heapOf Samples.lineAgain) [3; 2; 1; 0] ∧
  length Samples.lineRefs ≤ 4 ∧
  length [3; 2; 1; 0] ≤ 9 ∧
  observe Samples.lineHeap
    (computeMinimumCircles Samples.lineHeap 4 Samples.lineRefs
                           (Samples.fin 1))
  = observe (Cli.heapOf Samples.lineAgain)
      (computeMinimumCircles (Cli.heapOf Samples.lineAgain) 9 [3; 2; 1; 0]
                             (Samples.fin 1)).
Proof.
  assert (length Samples.lineRefs ≤ 4) as Hf1 by (simpl; lia).
  assert (length [3; 2; 1; 0] ≤ 9) as Hf2 by (simpl; lia).
  split; [reflexivity|]. split; [done|]. split; [done|].
  by apply (determinism Samples.lineHeap (Cli.heapOf Samples.lineAgain) 4 9).
Defined.

Lemma duplicates_by_identity_witness :
  computeMinimumCircles (Cli.heapOf Samples.triple) 3 [0; 1; 2]
                        (Samples.fin 1)
  = Return [ {| center := 0; radius := Samples.fin 1;
                points := [0; 1; 2] |} ].
Proof.
  apply (duplicates_by_identity (Cli.heapOf Samples.triple) 3
           (Samples.fin 1)); try reflexivity.
  split; reflexivity.
Defined.

Lemma bad_radius_rejected_witness :
  (Cli.Options.radius (Samples.options (Some (Samples.fin (-2)))) = None
   ∨ ∃ r, Cli.Options.radius (Samples.options (Some (Samples.fin (-2))))
          = Some r ∧
          (isNaN r = true ∨ toBoolean r = false ∨ le r zero = true)) ∧
  Cli.dzzones 0 (Samples.options (Some (Samples.fin (-2)))) Cli.ReadError
  = Cli.Exit1 Cli.radiusRequired.
Proof.
  assert (Cli.Options.radius (Samples.options (Some (Samples.fin (-2))))
          = None
          ∨ ∃ r, Cli.Options.radius
                   (Samples.options (Some (Samples.fin (-2)))) = Some r ∧
                 (isNaN r = true ∨ toBoolean r = false ∨ le r zero = true))
    as Hbad.
  { right. exists (Samples.fin (-2)). split; [reflexivity|].
    right. right. reflexivity. }
  split; [done|].
  exact (bad_radius_rejected 0 (Samples.options (Some (Samples.fin (-2))))
           Cli.ReadError Hbad).
Defined.

(** ** More about the loop: every input, and who covers whom *)

Section RunFacts.
Context `{JSNumber}.
Variable heap : ref → Point.
Variable maxRadius : num.

(** The scan leaves [bestCircle] at [null] exactly when no candidate of the
    array covers any entry of it. *)
Lemma scan_none (u : list ref) :
  bestCircle (scan heap maxRadius u) = None
  ↔ ∀ c p, c ∈ u → p ∈ u → within heap maxRadius c p = false.
Proof.
  pose proof (scan_scanned heap maxRadius u) as Hs. unfold scanned in Hs.
  destruct (bestCircle (scan heap maxRadius u)) as [best|]; split; try done.
  - intros Hnone. exfalso.
    destruct Hs as (_ & _ & Hp & Hpos & i & Hi & _).
    apply list_elem_of_lookup_2 in Hi.
    destruct (points best) as [|p ps] eqn:E; [simpl in Hpos; lia|].
    assert (p ∈ coveredPoints heap maxRadius (center best) u) as Hin.
    { rewrite <- Hp. by left. }
    apply elem_of_coveredPoints in Hin as [Hw Hpu].
    by rewrite (Hnone _ _ Hi Hpu) in Hw.
  - intros _ c p Hc Hp. destruct Hs as [_ Hz]. specialize (Hz c Hc).
    destruct (within heap maxRadius c p) eqn:E; [|done].
    assert (p ∈ coveredPoints heap maxRadius c u) as Hin
      by by apply elem_of_coveredPoints.
    destruct (coveredPoints heap maxRadius c u); [|done].
    by apply elem_of_nil in Hin.
Qed.

Lemma whileLoop_outcome (fuel : nat) (u : list ref) :
  length u ≤ fuel →
  (∃ cs, whileLoop heap fuel maxRadius u [] = Return cs)
  ∨ whileLoop heap fuel maxRadius u [] = Throw TypeError.
Proof.
  intros Hfuel. pose proof (whileLoop_fuel heap maxRadius fuel u [] Hfuel).
  destruct (whileLoop heap fuel maxRadius u []) as [cs|[]|]; try done.
  - left. by exists cs.
  - by right.
Qed.

Lemma emits_center_in (u : list ref) (cs : list Circle) :
  emits heap maxRadius u cs → ∀ c, c ∈ cs → center c ∈ u.
Proof.
  intros Hrun c Hc.
  destruct (emits_origin heap maxRadius u cs Hrun c Hc) as (u' & Hsub & Hin & _).
  by eapply elem_of_sublist.
Qed.

Lemma uncoverable_throws (fuel : nat) (u : list ref) (p : ref) :
  p ∈ u → (∀ c, c ∈ u → within heap maxRadius c p = false) →
  length u ≤ fuel →
  whileLoop heap fuel maxRadius u [] = Throw TypeError.
Proof.
  intros Hp Hnone Hfuel.
  destruct (whileLoop_outcome fuel u Hfuel) as [[cs Hrun]|Hthrow]; [|done].
  apply whileLoop_emits in Hrun.
  destruct (emits_covers heap maxRadius u cs Hrun p Hp) as (c & Hc & Hw).
  rewrite (Hnone (center c)) in Hw; [done|].
  by apply (emits_center_in u cs).
Qed.

Lemma self_covered_returns (fuel : nat) (u : list ref) :
  (∀ p, p ∈ u → within heap maxRadius p p = true) → length u ≤ fuel →
  ∃ cs, whileLoop heap fuel maxRadius u [] = Return cs.
Proof.
  revert u. induction fuel as [|fuel IH]; intros [|a u] Hself Hlen; simpl;
    try (by eexists); [simpl in Hlen; lia|].
  destruct (bestCircle (scan heap maxRadius (a :: u))) as [best|] eqn:Hbest.
  - rewrite whileLoop_acc.
    destruct (IH (removeCovered (points best) (a :: u))) as [cs ->].
    + rewrite (removeCovered_best _ _ _ _ Hbest).
      intros p [_ Hp]%list_elem_of_filter. by apply Hself.
    + apply removeCovered_best_length in Hbest. simpl in *. lia.
    + by eexists.
  - exfalso. pose proof (proj1 (scan_none (a :: u)) Hbest a a) as Hno.
    rewrite Hself in Hno by left. by specialize (Hno ltac:(left) ltac:(left)).
Qed.

Lemma filter_all (P : ref → Prop) `{!∀ p, Decision (P p)} (l : list ref) :
  (∀ p, p ∈ l → P p) → filter P l = l.
Proof.
  induction l as [|a l IH]; intros Hall; [done|].
  rewrite filter_cons_True by (apply Hall; left). f_equal.
  apply IH. intros p Hp. apply Hall. by right.
Qed.

(** The array at the [k]-th iteration: the input entries that no earlier
    center covers. *)
Lemma uncoveredAt_filter (u : list ref) (cs : list Circle) (k : nat) :
  emits heap maxRadius u cs →
  uncoveredAt u cs k
  = filter (λ p, Forall (λ c, within heap maxRadius (center c) p = false)
                        (take k cs)) u.
Proof.
  intros Hrun. revert k. unfold uncoveredAt.
  induction Hrun as [|u best rest Hne Hbest _ IH]; intros k.
  - by rewrite take_nil.
  - destruct k as [|k]; simpl.
    + symmetry. apply filter_all. intros p _. constructor.
    + rewrite IH, (removeCovered_best _ _ _ _ Hbest), list_filter_filter.
      apply list_filter_iff. intros p. rewrite Forall_cons. tauto.
Qed.

End RunFacts.

Section ShapeFacts.
Context `{JSNumber}.
Variable heap : ref → Point.
Variable maxRadius : num.

Lemma filter_none (P : ref → Prop) `{!∀ p, Decision (P p)} (l : list ref) :
  (∀ p, p ∈ l → ¬ P p) → filter P l = [].
Proof.
  induction l as [|a l IH]; intros Hnone; [done|].
  rewrite filter_cons_False by (apply Hnone; left).
  apply IH. intros p Hp. apply Hnone. by right.
Qed.

Lemma emits_apart (u : list ref) (cs : list Circle) :
  emits heap maxRadius u cs →
  ∀ i j ci cj, i < j → cs !! i = Some ci → cs !! j = Some cj →
               within heap maxRadius (center ci) (center cj) = false.
Proof.
  intros Hrun i j ci cj Hij Hi Hj.
  pose proof (emits_at heap maxRadius u cs j cj Hrun Hj) as Hbest.
  pose proof (scan_scanned heap maxRadius (uncoveredAt u cs j)) as Hs.
  unfold scanned in Hs. rewrite Hbest in Hs.
  destruct Hs as (_ & _ & _ & _ & n & Hn & _).
  apply list_elem_of_lookup_2 in Hn.
  rewrite (uncoveredAt_filter heap maxRadius u cs j Hrun) in Hn.
  apply list_elem_of_filter in Hn as [Hall _].
  apply (proj1 (Forall_forall _ _) Hall ci).
  apply list_elem_of_lookup. exists i. by rewrite lookup_take_lt.
Qed.

Lemma emits_center_covered (u : list ref) (cs : list Circle) :
  (∀ p, p ∈ u → within heap maxRadius p p = true) →
  emits heap maxRadius u cs → ∀ c, c ∈ cs → center c ∈ points c.
Proof.
  intros Hself Hrun c Hc.
  destruct (emits_origin heap maxRadius u cs Hrun c Hc) as (u' & Hsub & Hin & ->).
  apply elem_of_coveredPoints. split; [|done].
  apply Hself. by eapply elem_of_sublist.
Qed.

Lemma emits_centers_NoDup (u : list ref) (cs : list Circle) :
  (∀ p, p ∈ u → within heap maxRadius p p = true) →
  emits heap maxRadius u cs → NoDup (map center cs).
Proof.
  intros Hself Hrun. apply NoDup_alt. intros i j c Hi Hj.
  change (map center cs) with (center <$> cs) in Hi, Hj.
  apply list_lookup_fmap_Some in Hi as (ci & -> & Hi).
  apply list_lookup_fmap_Some in Hj as (cj & Heq & Hj).
  assert (within heap maxRadius (center ci) (center ci) = true) as Hw.
  { apply Hself, (emits_center_in heap maxRadius u cs Hrun).
    by eapply list_elem_of_lookup_2. }
  destruct (Nat.lt_total i j) as [Hlt|[->|Hlt]]; [|done|].
  - pose proof (emits_apart u cs Hrun i j ci cj Hlt Hi Hj) as Hno.
    rewrite Heq in Hno. congruence.
  - pose proof (emits_apart u cs Hrun j i cj ci Hlt Hj Hi) as Hno.
    rewrite <- Heq in Hno. congruence.
Qed.

(** The scan when one candidate covers the whole array. *)
Lemma scan_covers_all (u : list ref) (i : nat) (c : ref) :
  u !! i = Some c →
  (∀ p, p ∈ u → within heap maxRadius c p = true) →
  (∀ j c', j < i → u !! j = Some c' →
           ∃ p, p ∈ u ∧ within heap maxRadius c' p = false) →
  bestCircle (scan heap maxRadius u)
  = Some {| center := c; radius := maxRadius; points := u |}.
Proof.
  intros Hi Hall Hbefore.
  assert (c ∈ u) as Hc by by eapply list_elem_of_lookup_2.
  assert (coveredPoints heap maxRadius c u = u) as Hcov.
  { rewrite coveredPoints_filter. by apply filter_all. }
  pose proof (scan_scanned heap maxRadius u) as Hs. unfold scanned in Hs.
  destruct (bestCircle (scan heap maxRadius u)) as [best|].
  - destruct Hs as (_ & Hr & Hp & _ & n & Hn & Hmax & Hfirst).
    assert (length (points best) = length u) as Hlen.
    { apply Nat.le_antisymm.
      - rewrite Hp, coveredPoints_filter. apply length_filter.
      - specialize (Hmax c Hc). by rewrite Hcov in Hmax. }
    assert (n = i) as ->.
    { destruct (Nat.lt_total n i) as [Hlt|[->|Hlt]]; [|done|].
      - destruct (Hbefore n (center best) Hlt Hn) as (p & Hp' & Hw).
        rewrite Hp, coveredPoints_filter in Hlen.
        pose proof (length_filter_lt
                      (λ q, within heap maxRadius (center best) q = true)
                      u p Hp') as Hshort.
        simpl in Hshort. rewrite Hw in Hshort.
        specialize (Hshort ltac:(done)). lia.
      - specialize (Hfirst i c Hlt Hi). rewrite Hcov in Hfirst. lia. }
    assert (center best = c) as Hcenter by congruence.
    destruct best as [bc br bp]. simpl in *. subst. by rewrite Hcov.
  - destruct Hs as [_ Hz]. specialize (Hz c Hc). rewrite Hcov in Hz.
    destruct u; [by apply elem_of_nil in Hc|done].
Qed.

(** The covered subset of a candidate that is within the radius of no entry
    but itself, in an array without repetition. *)
Lemma coveredPoints_alone (u : list ref) (c : ref) :
  NoDup u → c ∈ u →
  (∀ p, p ∈ u → within heap maxRadius c p = true ↔ c = p) →
  coveredPoints heap maxRadius c u = [c].
Proof.
  rewrite coveredPoints_filter.
  induction u as [|a u IH]; intros Hnd Hc Hiso; [by apply elem_of_nil in Hc|].
  apply NoDup_cons in Hnd as [Ha Hnd].
  destruct (decide (c = a)) as [->|Hne].
  - rewrite filter_cons_True by (apply Hiso; [left|done]).
    f_equal. apply filter_none. intros p Hp Hw.
    apply Hiso in Hw; [|by right]. by subst.
  - rewrite filter_cons_False.
    + apply IH; [done| |].
      * by apply elem_of_cons in Hc as [?|?].
      * intros p Hp. apply Hiso. by right.
    + intros Hw. apply Hiso in Hw; [done|left].
Qed.

Lemma whileLoop_isolated (fuel : nat) (u : list ref) :
  NoDup u →
  (∀ c p, c ∈ u → p ∈ u → within heap maxRadius c p = true ↔ c = p) →
  length u ≤ fuel →
  whileLoop heap fuel maxRadius u []
  = Return (map (λ p, {| center := p; radius := maxRadius; points := [p] |}) u).
Proof.
  revert fuel. induction u as [|a u IH]; intros fuel Hnd Hiso Hfuel.
  - by destruct fuel.
  - destruct fuel as [|fuel]; [simpl in Hfuel; lia|].
    assert (bestCircle (scan heap maxRadius (a :: u))
            = Some {| center := a; radius := maxRadius; points := [a] |})
      as Hbest.
    { pose proof (scan_scanned heap maxRadius (a :: u)) as Hs.
      unfold scanned in Hs.
      assert (∀ c, c ∈ a :: u →
                   coveredPoints heap maxRadius c (a :: u) = [c]) as Hone.
      { intros c Hc. apply coveredPoints_alone; [done|done|].
        intros p Hp. by apply Hiso. }
      destruct (bestCircle (scan heap maxRadius (a :: u))) as [best|].
      - destruct Hs as (_ & Hr & Hp & _ & n & Hn & _ & Hfirst).
        assert (n = 0) as ->.
        { destruct n as [|n]; [done|].
          specialize (Hfirst 0 a ltac:(lia) eq_refl).
          rewrite (Hone a) in Hfirst by left.
          rewrite Hp, (Hone (center best)) in Hfirst; [simpl in Hfirst; lia|].
          by eapply list_elem_of_lookup_2. }
        injection Hn as Hn. destruct best as [bc br bp]. simpl in *.
        subst bc br bp. by rewrite (Hone a) by left.
      - destruct Hs as [_ Hz]. specialize (Hz a ltac:(left)).
        by rewrite (Hone a) in Hz by left. }
    simpl whileLoop. rewrite Hbest.
    rewrite (removeCovered_best _ _ _ _ Hbest), whileLoop_acc. simpl center.
    apply NoDup_cons in Hnd as [Ha Hnd].
    assert (filter (λ p, within heap maxRadius a p = false) (a :: u) = u) as ->.
    { rewrite filter_cons_False.
      - apply filter_all. intros p Hp.
        destruct (within heap maxRadius a p) eqn:E; [|done].
        apply Hiso in E; [by subst|left|by right].
      - assert (within heap maxRadius a a = true) as ->; [|done].
        apply Hiso; [left|left|done]. }
    rewrite IH; [done|done| |simpl in Hfuel; lia].
    intros c p Hc Hp. apply Hiso; by right.
Qed.

End ShapeFacts.

(** ** Further properties of [computeMinimumCircles] *)

(** X1.  Whatever the points and the radius, the [while] loop makes at most
    one iteration per input point: given that many, the call returns or
    throws a [TypeError], and a larger bound changes nothing. *)
Theorem every_call_ends `{JSNumber} (heap : ref → Point) (fuel : nat)
    (input : list ref) (maxRadius : num) :
  length input ≤ fuel →
  ((∃ circles,
      computeMinimumCircles heap fuel input maxRadius = Return circles)
   ∨ computeMinimumCircles heap fuel input maxRadius = Throw TypeError) ∧
  ∀ fuel', length input ≤ fuel' →
           computeMinimumCircles heap fuel' input maxRadius
           = computeMinimumCircles heap fuel input maxRadius.
Proof.
  intros Hfuel. split; [by apply whileLoop_outcome|].
  intros fuel' Hfuel'. by apply whileLoop_fuel_irrelevant.
Qed.

(** X2.  After the scan of lines 88-109, [bestCircle] is still [null]
    (so that line 112 throws) exactly when no entry of [uncoveredPoints]
    is within [maxRadius] of any entry, itself included. *)
Theorem null_scan_iff `{JSNumber} (heap : ref → Point) (maxRadius : num)
    (uncovered : list ref) :
  bestCircle (scan heap maxRadius uncovered) = None
  ↔ ∀ c p, c ∈ uncovered → p ∈ uncovered →
           within heap maxRadius c p = false.
Proof. apply scan_none. Qed.

(** X3.  If some input point fails the distance test against every input
    point, itself included, the call throws a [TypeError]: it never returns
    a cover that leaves the point out. *)
Theorem uncoverable_point_throws `{JSNumber} (heap : ref → Point) (fuel : nat)
    (input : list ref) (maxRadius : num) (p : ref) :
  p ∈ input →
  (∀ c, c ∈ input → within heap maxRadius c p = false) →
  length input ≤ fuel →
  computeMinimumCircles heap fuel input maxRadius = Throw TypeError.
Proof. apply uncoverable_throws. Qed.

(** X4.  All the loop needs to return is that every input point passes the
    distance test against itself (as it does with radius zero); the call
    then returns at most one circle per point and every point is within
    [maxRadius] of a returned center. *)
Theorem self_covering_returns `{JSNumber} (heap : ref → Point) (fuel : nat)
    (input : list ref) (maxRadius : num) :
  (∀ p, p ∈ input → within heap maxRadius p p = true) →
  length input ≤ fuel →
  ∃ circles,
    computeMinimumCircles heap fuel input maxRadius = Return circles ∧
    length circles ≤ length input ∧
    ∀ p, p ∈ input →
         ∃ c, c ∈ circles ∧ within heap maxRadius (center c) p = true.
Proof.
  intros Hself Hfuel.
  destruct (self_covered_returns heap maxRadius fuel input Hself Hfuel)
    as [circles Hrun].
  exists circles. split; [done|]. apply whileLoop_emits in Hrun.
  split; [by eapply emits_length|by apply (emits_covers heap maxRadius input)].
Qed.

(** X5.  First fit: in a run that returns, the covered subset of the
    [k]-th circle is made of the input entries, in input order, that are
    within [maxRadius] of its center and of no earlier center; and no entry
    is left once the last circle is chosen. *)
Theorem first_fit `{JSNumber} (heap : ref → Point) (fuel : nat)
    (input : list ref) (maxRadius : num) (circles : list Circle) :
  computeMinimumCircles heap fuel input maxRadius = Return circles →
  (∀ k c, circles !! k = Some c →
     points c
     = filter (λ p, within heap maxRadius (center c) p = true ∧
                    Forall (λ c', within heap maxRadius (center c') p = false)
                           (take k circles)) input) ∧
  uncoveredAt input circles (length circles) = [].
Proof.
  intros Hrun. apply whileLoop_emits in Hrun. split.
  - intros k c Hk.
    pose proof (emits_at heap maxRadius input circles k c Hrun Hk) as Hbest.
    pose proof (scan_scanned heap maxRadius (uncoveredAt input circles k)) as Hs.
    unfold scanned in Hs. rewrite Hbest in Hs.
    destruct Hs as (_ & _ & -> & _).
    rewrite coveredPoints_filter, (uncoveredAt_filter heap maxRadius _ _ _ Hrun).
    apply list_filter_filter.
  - unfold uncoveredAt. rewrite firstn_all.
    induction Hrun as [|u best rest Hne Hbest _ IH]; [done|]. apply IH.
Qed.

(** X6.  In a run that returns, a later center is never within
    [maxRadius] of an earlier one. *)
Theorem centers_apart `{JSNumber} (heap : ref → Point) (fuel : nat)
    (input : list ref) (maxRadius : num) (circles : list Circle) :
  computeMinimumCircles heap fuel input maxRadius = Return circles →
  ∀ i j ci cj, i < j → circles !! i = Some ci → circles !! j = Some cj →
               within heap maxRadius (center ci) (center cj) = false.
Proof.
  intros Hrun. apply whileLoop_emits in Hrun.
  by apply (emits_apart heap maxRadius input).
Qed.

(** X7.  On finite points and a positive radius, the returned circles are
    centered on pairwise different point objects, and each circle has its
    own center among its covered points. *)
Theorem centers_distinct `{JSNumber} (heap : ref → Point) (fuel : nat)
    (input : list ref) (maxRadius : num) (circles : list Circle) :
  Forall (finitePoint heap) input → lt zero maxRadius = true →
  computeMinimumCircles heap fuel input maxRadius = Return circles →
  NoDup (map center circles) ∧ ∀ c, c ∈ circles → center c ∈ points c.
Proof.
  intros Hfin Hr Hrun. apply whileLoop_emits in Hrun.
  assert (∀ p, p ∈ input → within heap maxRadius p p = true) as Hself.
  { intros p Hp. apply within_self; [|done].
    by apply (proj1 (Forall_forall _ _) Hfin). }
  split.
  - by apply (emits_centers_NoDup heap maxRadius input).
  - by apply (emits_center_covered heap maxRadius input).
Qed.

(** X8.  When some input point is within [maxRadius] of every input point,
    the call returns a single circle: it is centered on the first such
    point of the input and its covered subset is the whole input. *)
Theorem one_circle_suffices `{JSNumber} (heap : ref → Point) (fuel : nat)
    (input : list ref) (maxRadius : num) (i : nat) (c : ref) :
  input !! i = Some c →
  (∀ p, p ∈ input → within heap maxRadius c p = true) →
  (∀ j c', j < i → input !! j = Some c' →
           ∃ p, p ∈ input ∧ within heap maxRadius c' p = false) →
  0 < fuel →
  computeMinimumCircles heap fuel input maxRadius
  = Return [ {| center := c; radius := maxRadius; points := input |} ].
Proof.
  intros Hi Hall Hbefore Hfuel.
  pose proof (scan_covers_all heap maxRadius input i c Hi Hall Hbefore) as Hbest.
  destruct fuel as [|fuel]; [lia|]. unfold computeMinimumCircles.
  destruct input as [|a u]; [done|]. simpl whileLoop. rewrite Hbest.
  rewrite (removeCovered_best _ _ _ _ Hbest). simpl center.
  rewrite filter_none; [by destruct fuel|].
  intros p Hp. by rewrite (Hall p Hp).
Qed.

(** X9.  When the input holds pairwise different point objects and each is
    within [maxRadius] of itself only, the call returns one circle per
    point, in input order, each covering just its center. *)
Theorem isolated_points_own_circles `{JSNumber} (heap : ref → Point)
    (fuel : nat) (input : list ref) (maxRadius : num) :
  NoDup input →
  (∀ c p, c ∈ input → p ∈ input →
          within heap maxRadius c p = true ↔ c = p) →
  length input ≤ fuel →
  computeMinimumCircles heap fuel input maxRadius
  = Return (map (λ p, {| center := p; radius := maxRadius; points := [p] |})
                input).
Proof. apply whileLoop_isolated. Qed.

(** ** The script as a whole *)

Section ScriptFacts.
Context `{JSNumber}.

Lemma heapOf_project (Objects : list (num * num * num)) (i : nat)
    (pos : num * num * num) :
  Objects !! i = Some pos →
  Cli.heapOf (Cli.project Objects) i = {| x := pos.1.1; y := pos.2 |}.
Proof.
  intros Hi. unfold Cli.heapOf, Cli.project.
  change (map ?f Objects) with (f <$> Objects).
  rewrite list_lookup_fmap, Hi. by destruct pos as [[px pz] py].
Qed.

Lemma project_finite (Objects : list (num * num * num)) :
  Forall (λ pos, isFinite pos.1.1 = true ∧ isFinite pos.2 = true) Objects →
  Forall (finitePoint (Cli.heapOf (Cli.project Objects)))
         (seq 0 (length (Cli.project Objects))).
Proof.
  intros Hfin. apply Forall_forall. intros i Hi.
  apply elem_of_seq in Hi as [_ Hi]. unfold Cli.project in Hi.
  rewrite length_map in Hi. simpl in Hi.
  destruct (lookup_lt_is_Some_2 Objects i Hi) as [pos Hpos].
  unfold finitePoint. rewrite (heapOf_project Objects i pos Hpos). simpl.
  apply (proj1 (Forall_forall _ _) Hfin). by eapply list_elem_of_lookup_2.
Qed.

End ScriptFacts.

(** X10.  With all four options given, a radius that passes the check and
    is greater than zero, and objects whose [pos[0]] and [pos[2]] are
    finite, the script prints: at most one statement per object and at
    least one if there is an object; every statement carries the given
    type, sid and radius and the horizontal coordinates of one of the
    objects; and every object is within the radius of a printed center. *)
Theorem dzzones_prints `{JSNumber} (fuel : nat) (options : Cli.Options.t)
    (Objects : list (num * num * num)) (maxRadius : num)
    (zoneType zsid : string) :
  is_Some (Cli.present (Cli.Options.input options)) →
  Cli.acceptedRadius (Cli.Options.radius options) = Some maxRadius →
  Cli.present (Cli.Options.type options) = Some zoneType →
  Cli.present (Cli.Options.sid options) = Some zsid →
  lt zero maxRadius = true →
  Forall (λ pos, isFinite pos.1.1 = true ∧ isFinite pos.2 = true) Objects →
  length Objects ≤ fuel →
  ∃ rows,
    Cli.dzzones fuel options (Cli.Parsed Objects) = Cli.Printed rows ∧
    length rows ≤ length Objects ∧
    (Objects ≠ [] → rows ≠ []) ∧
    (∀ row, row ∈ rows →
       Cli.ztype row = zoneType ∧ Cli.zsid row = zsid ∧
       Cli.zradius row = maxRadius ∧
       ∃ pos, pos ∈ Objects ∧ Cli.zcoordsx row = pos.1.1
                            ∧ Cli.zcoordsy row = pos.2) ∧
    (∀ pos, pos ∈ Objects →
       ∃ row, row ∈ rows ∧
              hypot_le (sub pos.1.1 (Cli.zcoordsx row))
                       (sub pos.2 (Cli.zcoordsy row)) maxRadius = true).
Proof.
  intros [file Hin] Hrad Htype Hsid Hr Hfin Hfuel.
  unfold Cli.dzzones, Cli.callback. rewrite Hin, Hrad, Htype, Hsid.
  set (objs := Cli.project Objects). set (heap := Cli.heapOf objs).
  assert (length objs = length Objects) as Hlen
    by (unfold objs, Cli.project; apply length_map).
  destruct (whileLoop_returns heap maxRadius fuel (seq 0 (length objs)))
    as [circles Hrun]; [by apply project_finite|done| |].
  { rewrite length_seq. lia. }
  unfold computeMinimumCircles. rewrite Hrun.
  apply whileLoop_emits in Hrun.
  assert (∀ c, c ∈ circles → ∃ pos, Objects !! center c = Some pos) as Hpos.
  { intros c Hc.
    pose proof (emits_center_in heap maxRadius _ _ Hrun c Hc) as Hcin.
    apply elem_of_seq in Hcin as [_ Hcin].
    apply lookup_lt_is_Some_2. lia. }
  eexists. split; [done|]. split; [|split; [|split]].
  - rewrite length_map. apply emits_length in Hrun.
    rewrite length_seq in Hrun. lia.
  - intros Hne Hnil. apply fmap_nil_inv in Hnil. subst circles.
    inversion Hrun as [Hseq|]. destruct Objects; [done|].
    rewrite Hlen in Hseq. done.
  - intros r [c [-> Hc]]%list_elem_of_fmap. simpl.
    split; [done|]. split; [done|].
    split; [by apply (emits_radius heap maxRadius _ _ Hrun)|].
    destruct (Hpos c Hc) as [pos Hp]. exists pos.
    split; [by eapply list_elem_of_lookup_2|].
    unfold heap, objs. by rewrite (heapOf_project Objects _ pos Hp).
  - intros pos [i Hi]%list_elem_of_lookup.
    destruct (emits_covers heap maxRadius _ _ Hrun i) as (c & Hc & Hw).
    { apply elem_of_seq. apply lookup_lt_Some in Hi. lia. }
    exists (Cli.row heap zoneType zsid c).
    split; [apply list_elem_of_fmap; by exists c|].
    unfold within in Hw. simpl. unfold heap, objs in Hw |- *.
    by rewrite (heapOf_project Objects i pos Hi) in Hw.
Qed.

(** ** Arguments that are not finite positive numbers

    These properties depend on how the comparisons treat NaN and the
    infinities; they are proved in the arithmetic [ExactNumber]. *)

Lemma within_nonfinite (heap : ref → @Point ExactNumber.number)
    (maxRadius : @num ExactNumber.number) (c p : ref) :
  isFinite maxRadius = true →
  isFinite (x (heap p)) = false ∨ isFinite (y (heap p)) = false →
  within heap maxRadius c p = false.
Proof.
  unfold within. simpl.
  destruct maxRadius as [| | |s]; try discriminate. intros _.
  destruct (x (heap p)), (y (heap p)), (x (heap c)), (y (heap c));
    simpl; intros [?|?]; try discriminate; reflexivity.
Qed.

Lemma within_unusable_radius (heap : ref → @Point ExactNumber.number)
    (maxRadius : @num ExactNumber.number) (c p : ref) :
  le zero maxRadius = false → within heap maxRadius c p = false.
Proof.
  unfold within. simpl.
  destruct maxRadius as [| | |s]; simpl; try discriminate; intros Hs;
    destruct (x (heap p)), (y (heap p)), (x (heap c)), (y (heap c));
    simpl; try reflexivity.
  by rewrite Hs.
Qed.

(** X11.  The check of line 26 lets through exactly the radii greater than
    zero, [Infinity] among them, and stops NaN, zero and the negative
    numbers. *)
Theorem accepted_radius_positive (r : @num ExactNumber.number) :
  Cli.acceptedRadius (Some r) = if lt zero r then Some r else None.
Proof.
  destruct r as [| | |q]; try reflexivity. simpl.
  destruct (Qle_bool q 0) eqn:Hle; simpl; [by rewrite orb_true_r|].
  destruct (Qeq_bool q 0) eqn:Heq; [|done].
  apply Qeq_bool_iff in Heq.
  assert (Qle_bool q 0 = true) as Hle'; [|congruence].
  apply Qle_bool_iff. rewrite Heq. apply Qle_refl.
Qed.

(** X12.  With a finite radius, a point that has a coordinate which is NaN
    or infinite is within the radius of no point, itself included, and the
    call throws a [TypeError] (possibly after it has chosen circles for
    other points). *)
Theorem nonfinite_coordinate_throws (heap : ref → @Point ExactNumber.number)
    (fuel : nat) (input : list ref) (maxRadius : @num ExactNumber.number)
    (p : ref) :
  p ∈ input →
  isFinite (x (heap p)) = false ∨ isFinite (y (heap p)) = false →
  isFinite maxRadius = true →
  length input ≤ fuel →
  computeMinimumCircles heap fuel input maxRadius = Throw TypeError.
Proof.
  intros Hp Hbad Hr Hfuel.
  apply (uncoverable_throws heap maxRadius fuel input p); try done.
  intros c _. by apply within_nonfinite.
Qed.

(** X13.  Called with a radius that is NaN or below zero, the function
    throws a [TypeError] on every input that is not empty, and returns the
    empty list on the empty one. *)
Theorem unusable_radius_throws (heap : ref → @Point ExactNumber.number)
    (fuel : nat) (input : list ref) (maxRadius : @num ExactNumber.number) :
  le zero maxRadius = false →
  length input ≤ fuel →
  computeMinimumCircles heap fuel input maxRadius
  = match input with [] => Return [] | _ :: _ => Throw TypeError end.
Proof.
  intros Hr Hfuel. destruct input as [|a u]; [by destruct fuel|].
  apply (uncoverable_throws heap maxRadius fuel (a :: u) a); try done; [left|].
  intros c _. by apply within_unusable_radius.
Qed.

(** ** The further properties at sample inputs *)

Lemma every_call_ends_witness :
  length [0; 1] ≤ 2 ∧
  ((∃ circles,
      computeMinimumCircles (Cli.heapOf Samples.stray) 2 [0; 1] (Samples.fin 1)
      = Return circles)
   ∨ computeMinimumCircles (Cli.heapOf Samples.stray) 2 [0; 1] (Samples.fin 1)
     = Throw TypeError) ∧
  ∀ fuel', length [0; 1] ≤ fuel' →
           computeMinimumCircles (Cli.heapOf Samples.stray) fuel' [0; 1]
                                 (Samples.fin 1)
           = computeMinimumCircles (Cli.heapOf Samples.stray) 2 [0; 1]
                                   (Samples.fin 1).
Proof.
  assert (length [0; 1] ≤ 2) as Hfuel by (simpl; lia).
  split; [done|].
  exact (every_call_ends (Cli.heapOf Samples.stray) 2 [0; 1] (Samples.fin 1)
           Hfuel).
Defined.

Lemma uncoverable_point_throws_witness :
  computeMinimumCircles (Cli.heapOf Samples.stray) 2 [0; 1] (Samples.fin 1)
  = Throw TypeError.
Proof.
  apply (uncoverable_point_throws (Cli.heapOf Samples.stray) 2 [0; 1]
           (Samples.fin 1) 1).
  - right. left.
  - intros c Hc. repeat (apply elem_of_cons in Hc as [->|Hc]);
      try reflexivity. by apply elem_of_nil in Hc.
  - simpl. lia.
Defined.

Lemma self_covering_returns_witness :
  ∃ circles,
    computeMinimumCircles Samples.lineHeap 4 Samples.lineRefs (Samples.fin 0)
    = Return circles ∧
    length circles ≤ length Samples.lineRefs ∧
    ∀ p, p ∈ Samples.lineRefs →
         ∃ c, c ∈ circles ∧
              within Samples.lineHeap (Samples.fin 0) (center c) p = true.
Proof.
  apply (self_covering_returns Samples.lineHeap 4 Samples.lineRefs
           (Samples.fin 0)).
  - intros p Hp. repeat (apply elem_of_cons in Hp as [->|Hp]);
      try reflexivity. by apply elem_of_nil in Hp.
  - simpl. lia.
Defined.

Lemma first_fit_witness :
  (∀ k c, Samples.lineCircles !! k = Some c →
     points c
     = filter (λ p, within Samples.lineHeap (Samples.fin 1) (center c) p = true ∧
                    Forall (λ c', within Samples.lineHeap (Samples.fin 1)
                                         (center c') p = false)
                           (take k Samples.lineCircles)) Samples.lineRefs) ∧
  uncoveredAt Samples.lineRefs Samples.lineCircles
              (length Samples.lineCircles) = [].
Proof.
  apply (first_fit Samples.lineHeap 4 Samples.lineRefs (Samples.fin 1)).
  vm_compute. reflexivity.
Defined.

Lemma centers_apart_witness :
  within Samples.lineHeap (Samples.fin 1) 1 3 = false.
Proof.
  apply (centers_apart Samples.lineHeap 4 Samples.lineRefs (Samples.fin 1)
           Samples.lineCircles ltac:(vm_compute; reflexivity) 0 1
           {| center := 1; radius := Samples.fin 1; points := [0; 1; 2] |}
           {| center := 3; radius := Samples.fin 1; points := [3] |}).
  - lia.
  - reflexivity.
  - reflexivity.
Defined.

Lemma centers_distinct_witness :
  NoDup (map center Samples.lineCircles) ∧
  ∀ c, c ∈ Samples.lineCircles → center c ∈ points c.
Proof.
  apply (centers_distinct Samples.lineHeap 4 Samples.lineRefs (Samples.fin 1)).
  - repeat constructor.
  - reflexivity.
  - vm_compute. reflexivity.
Defined.

Lemma one_circle_suffices_witness :
  computeMinimumCircles (Cli.heapOf MoreSamples.row3) 1 [0; 1; 2]
                        (Samples.fin 1)
  = Return [ {| center := 1; radius := Samples.fin 1; points := [0; 1; 2] |} ].
Proof.
  apply (one_circle_suffices (Cli.heapOf MoreSamples.row3) 1 [0; 1; 2]
           (Samples.fin 1) 1 1).
  - reflexivity.
  - intros p Hp. repeat (apply elem_of_cons in Hp as [->|Hp]);
      try reflexivity. by apply elem_of_nil in Hp.
  - intros j c' Hj Hc'. destruct j as [|j]; [|lia].
    injection Hc' as <-. exists 2. split; [|reflexivity].
    right. right. left.
  - lia.
Defined.

Lemma isolated_points_own_circles_witness :
  computeMinimumCircles (Cli.heapOf MoreSamples.far) 3 [0; 1; 2]
                        (Samples.fin 1)
  = Return (map (λ p, {| center := p; radius := Samples.fin 1;
                         points := [p] |}) [0; 1; 2]).
Proof.
  apply (isolated_points_own_circles (Cli.heapOf MoreSamples.far) 3 [0; 1; 2]
           (Samples.fin 1)).
  - apply (bool_decide_unpack _). reflexivity.
  - intros c p Hc Hp.
    repeat (apply elem_of_cons in Hc as [->|Hc]);
      try (by apply elem_of_nil in Hc);
      repeat (apply elem_of_cons in Hp as [->|Hp]);
      try (by apply elem_of_nil in Hp);
      split; intros Heq; try reflexivity; try discriminate Heq.
  - simpl. lia.
Defined.

Lemma dzzones_prints_witness :
  ∃ rows,
    Cli.dzzones 2 (Samples.options (Some (Samples.fin 5)))
                (Cli.Parsed MoreSamples.twoObjects) = Cli.Printed rows ∧
    length rows ≤ length MoreSamples.twoObjects ∧
    (MoreSamples.twoObjects ≠ [] → rows ≠ []) ∧
    (∀ row, row ∈ rows →
       Cli.ztype row = "safezone"%string ∧ Cli.zsid row = "1"%string ∧
       Cli.zradius row = Samples.fin 5 ∧
       ∃ pos, pos ∈ MoreSamples.twoObjects ∧ Cli.zcoordsx row = pos.1.1
                                           ∧ Cli.zcoordsy row = pos.2) ∧
    (∀ pos, pos ∈ MoreSamples.twoObjects →
       ∃ row, row ∈ rows ∧
              hypot_le (sub pos.1.1 (Cli.zcoordsx row))
                       (sub pos.2 (Cli.zcoordsy row)) (Samples.fin 5) = true).
Proof.
  apply (dzzones_prints 2 (Samples.options (Some (Samples.fin 5)))
           MoreSamples.twoObjects (Samples.fin 5) "safezone" "1").
  - by eexists.
  - reflexivity.
  - reflexivity.
  - reflexivity.
  - reflexivity.
  - repeat constructor.
  - simpl. lia.
Defined.

Lemma nonfinite_coordinate_throws_witness :
  computeMinimumCircles (Cli.heapOf Samples.stray) 2 [0; 1] (Samples.fin 1)
  = Throw TypeError.
Proof.
  apply (nonfinite_coordinate_throws (Cli.heapOf Samples.stray) 2 [0; 1]
           (Samples.fin 1) 1).
  - right. left.
  - left. reflexivity.
  - reflexivity.
  - simpl. lia.
Defined.

Lemma unusable_radius_throws_witness :
  computeMinimumCircles Samples.lineHeap 4 Samples.lineRefs (Samples.fin (-2))
  = Throw TypeError.
Proof.
  apply (unusable_radius_throws Samples.lineHeap 4 Samples.lineRefs
           (Samples.fin (-2))).
  - reflexivity.
  - simpl. lia.
Defined.

(** ** The flags of [dzwarp] *)

Section WarpFacts.
Context `{JSNumber}.
Variable parseFloat : option string → num.

Lemma assign_flag (arg : string) (value : option string) (m : Warp.ArgMap) :
  arg ∈ Warp.flags → is_Some (Warp.assign parseFloat arg value m).
Proof.
  unfold Warp.flags, Warp.assign. intros Hin.
  repeat (apply elem_of_cons in Hin as [->|Hin]); try (by eexists).
  by apply elem_of_nil in Hin.
Qed.

Lemma assign_other (arg : string) (value : option string) (m : Warp.ArgMap) :
  arg ∉ Warp.flags → Warp.assign parseFloat arg value m = None.
Proof.
  unfold Warp.flags, Warp.assign. rewrite !not_elem_of_cons.
  intros (? & ? & ? & ? & ? & ? & _). by rewrite !decide_False.
Qed.

Lemma parseLoop_words (pairs : list (string * string)) (rest : list string)
    (m : Warp.ArgMap) :
  Forall (λ p, p.1 ∈ Warp.flags) pairs →
  Warp.parseLoop parseFloat (Warp.words pairs ++ rest) m
  = Warp.parseLoop parseFloat rest
      (foldl (Warp.assigned parseFloat) m pairs).
Proof.
  intros Hflags. revert m.
  induction Hflags as [|[f v] pairs Hf _ IH]; intros m; [done|].
  simpl in *. destruct (assign_flag f (Some v) m Hf) as [m' Hm'].
  rewrite Hm'. unfold Warp.assigned at 2. simpl. rewrite Hm'. simpl.
  apply IH.
Qed.

Lemma assigned_comm (m : Warp.ArgMap) (p q : string * string) :
  p.1 ≠ q.1 →
  Warp.assigned parseFloat (Warp.assigned parseFloat m p) q
  = Warp.assigned parseFloat (Warp.assigned parseFloat m q) p.
Proof.
  destruct p as [f v], q as [g w]. unfold Warp.assigned, Warp.assign. simpl.
  intros Hne.
  repeat (case_decide; simplify_eq/=; try done).
Qed.

Lemma foldl_assigned_perm (pairs1 pairs2 : list (string * string))
    (m : Warp.ArgMap) :
  pairs1 ≡ₚ pairs2 → NoDup (map fst pairs1) →
  foldl (Warp.assigned parseFloat) m pairs1
  = foldl (Warp.assigned parseFloat) m pairs2.
Proof.
  intros Hperm. revert m.
  induction Hperm as [|p l1 l2 _ IH|p q l|l1 l2 l3 Hp1 IH1 Hp2 IH2];
    intros m Hnd; simpl in *.
  - done.
  - apply NoDup_cons in Hnd as [_ Hnd]. by apply IH.
  - apply NoDup_cons in Hnd as [Hq _]. f_equal. apply assigned_comm.
    intros Heq. apply Hq. rewrite Heq. left.
  - rewrite IH1 by done. apply IH2.
    by rewrite <- (fmap_Permutation fst _ _ Hp1).
Qed.

End WarpFacts.

(** X14.  When [parseArguments] returns, it returns the map its loop built,
    [inputSetPath] is a string that is not empty, and exactly one way of
    warping is set: either [-x], [-y] and [-z] were all given with values
    that are not NaN and [-iw] was not, or [-iw] was given and none of
    [-x], [-y], [-z] was. *)
Theorem parseArguments_accepts `{JSNumber} (parseFloat : option string → num)
    (args : list string) (m : Warp.ArgMap) :
  Warp.parseArguments parseFloat args = Warp.Args m →
  Warp.parseLoop parseFloat args Warp.emptyMap = Warp.Args m ∧
  Warp.given (Warp.inputSetPath m) = true ∧
  ((∃ wx wy wz,
      Warp.warpX m = Some wx ∧ Warp.warpY m = Some wy ∧
      Warp.warpZ m = Some wz ∧
      isNaN wx = false ∧ isNaN wy = false ∧ isNaN wz = false ∧
      Warp.warpSetPath m = None)
   ∨ (Warp.warpX m = None ∧ Warp.warpY m = None ∧ Warp.warpZ m = None ∧
      is_Some (Warp.warpSetPath m))).
Proof.
  unfold Warp.parseArguments.
  destruct (Warp.parseLoop parseFloat args Warp.emptyMap) as [|m0]; [done|].
  unfold Warp.check.
  destruct (Warp.warpX m0) as [wx|] eqn:Hx, (Warp.warpY m0) as [wy|] eqn:Hy,
           (Warp.warpZ m0) as [wz|] eqn:Hz,
           (Warp.warpSetPath m0) as [ws|] eqn:Hs,
           (Warp.given (Warp.inputSetPath m0)) eqn:Hg;
    simpl; try done.
  - destruct (isNaN wx) eqn:Nx, (isNaN wy) eqn:Ny, (isNaN wz) eqn:Nz;
      simpl; try done.
    intros [= <-]. rewrite Hx, Hy, Hz, Hs, Hg.
    split; [done|]. split; [done|]. left. by exists wx, wy, wz.
  - intros [= <-]. rewrite Hx, Hy, Hz, Hs, Hg.
    split; [done|]. split; [done|]. right. repeat split; by eexists.
Qed.

(** X15.  The words are read in pairs, a flag and its value: once flags
    with their values have been read, a word in flag position that is not
    one of the six flags ends the program with [Unknown argument], whatever
    follows it and whatever was given before. *)
Theorem unknown_argument_exits `{JSNumber} (parseFloat : option string → num)
    (pairs : list (string * string)) (arg : string) (rest : list string) :
  Forall (λ p, p.1 ∈ Warp.flags) pairs → arg ∉ Warp.flags →
  Warp.parseArguments parseFloat (Warp.words pairs ++ arg :: rest)
  = Warp.Exit (Warp.UnknownArgument arg).
Proof.
  intros Hflags Harg. unfold Warp.parseArguments.
  rewrite parseLoop_words by done. simpl.
  by rewrite assign_other.
Qed.

(** X16.  Flags may come in any order: two command lines made of the same
    flag-value pairs, no flag given twice, are parsed to the same result. *)
Theorem flag_order_irrelevant `{JSNumber} (parseFloat : option string → num)
    (pairs1 pairs2 : list (string * string)) :
  pairs1 ≡ₚ pairs2 → NoDup (map fst pairs1) →
  Forall (λ p, p.1 ∈ Warp.flags) pairs1 →
  Warp.parseArguments parseFloat (Warp.words pairs1)
  = Warp.parseArguments parseFloat (Warp.words pairs2).
Proof.
  intros Hperm Hnd Hflags. unfold Warp.parseArguments.
  assert (Forall (λ p, p.1 ∈ Warp.flags) pairs2) as Hflags2
    by by rewrite <- Hperm.
  rewrite <- (app_nil_r (Warp.words pairs1)), <- (app_nil_r (Warp.words pairs2)).
  rewrite !parseLoop_words by done. simpl.
  by rewrite (foldl_assigned_perm parseFloat pairs1 pairs2).
Qed.

Lemma parseArguments_accepts_witness :
  ∃ m,
    Warp.parseArguments MoreSamples.sampleParseFloat
      (Warp.words MoreSamples.byCoordinates) = Warp.Args m ∧
    Warp.parseLoop MoreSamples.sampleParseFloat
      (Warp.words MoreSamples.byCoordinates) Warp.emptyMap = Warp.Args m ∧
    Warp.given (Warp.inputSetPath m) = true ∧
    ((∃ wx wy wz,
        Warp.warpX m = Some wx ∧ Warp.warpY m = Some wy ∧
        Warp.warpZ m = Some wz ∧
        isNaN wx = false ∧ isNaN wy = false ∧ isNaN wz = false ∧
        Warp.warpSetPath m = None)
     ∨ (Warp.warpX m = None ∧ Warp.warpY m = None ∧ Warp.warpZ m = None ∧
        is_Some (Warp.warpSetPath m))).
Proof.
  eexists. split; [vm_compute; reflexivity|].
  apply (parseArguments_accepts MoreSamples.sampleParseFloat
           (Warp.words MoreSamples.byCoordinates)).
  vm_compute. reflexivity.
Defined.

Lemma unknown_argument_exits_witness :
  Warp.parseArguments MoreSamples.sampleParseFloat
    (Warp.words MoreSamples.byCoordinates ++ ["--fast"; "-x"; "1"]%string)
  = Warp.Exit (Warp.UnknownArgument "--fast").
Proof.
  apply (unknown_argument_exits MoreSamples.sampleParseFloat
           MoreSamples.byCoordinates "--fast" ["-x"; "1"]%string).
  - repeat constructor.
  - apply (bool_decide_unpack _). vm_compute. exact I.
Defined.

Lemma flag_order_irrelevant_witness :
  Warp.parseArguments MoreSamples.sampleParseFloat
    (Warp.words [("-is", "a.json"); ("-iw", "b.json")]%string)
  = Warp.parseArguments MoreSamples.sampleParseFloat
      (Warp.words [("-iw", "b.json"); ("-is", "a.json")]%string).
Proof.
  apply (flag_order_irrelevant MoreSamples.sampleParseFloat
           [("-is", "a.json"); ("-iw", "b.json")]%string
           [("-iw", "b.json"); ("-is", "a.json")]%string).
  - apply perm_swap.
  - apply (bool_decide_unpack _). vm_compute. exact I.
  - repeat constructor.
Defined.

(** ** How many circles *)

Lemma concat_points_length `{JSNumber} (cs : list Circle) (m : nat) :
  (∀ c, c ∈ cs → length (points c) ≤ m) →
  length (concat (map points cs)) ≤ length cs * m.
Proof.
  induction cs as [|c cs IH]; intros Hm; simpl; [lia|].
  rewrite length_app. specialize (Hm c ltac:(left)) as Hc.
  assert (length (concat (map points cs)) ≤ length cs * m); [|lia].
  apply IH. intros c' Hc'. apply Hm. by right.
Qed.

(** X17.  In a run that returns circles, no circle covers more points than
    the first one, so the input has at most (number of circles) times
    (number of points of the first circle) points. *)
Theorem cover_size_bound `{JSNumber} (heap : ref → Point) (fuel : nat)
    (input : list ref) (maxRadius : num) (first : Circle)
    (rest : list Circle) :
  computeMinimumCircles heap fuel input maxRadius = Return (first :: rest) →
  (∀ c, c ∈ first :: rest → length (points c) ≤ length (points first)) ∧
  length input ≤ length (first :: rest) * length (points first).
Proof.
  intros Hrun. apply whileLoop_emits in Hrun.
  assert (∀ c, c ∈ first :: rest →
               length (points c) ≤ length (points first)) as Hmax.
  { intros c [->|Hc]%elem_of_cons; [done|].
    by apply (emits_head_max heap maxRadius input first rest). }
  split; [done|].
  rewrite <- (Permutation_length (emits_partition heap maxRadius _ _ Hrun)).
  by apply concat_points_length.
Qed.

Lemma cover_size_bound_witness :
  (∀ c, c ∈ Samples.lineCircles →
        length (points c) ≤ 3) ∧
  length Samples.lineRefs ≤ length Samples.lineCircles * 3.
Proof.
  apply (cover_size_bound Samples.lineHeap 4 Samples.lineRefs (Samples.fin 1)
           {| center := 1; radius := Samples.fin 1; points := [0; 1; 2] |}
           [ {| center := 3; radius := Samples.fin 1; points := [3] |} ]).
  vm_compute. reflexivity.
Defined.
